(** * tcp-probe: a shallow embedding of [src/ping.js]

    The development follows the source top-down: JavaScript values as far as
    the program inspects them, the option object and its defaults, one probe
    attempt (the closure created by [connect]) as a record of its captured
    variables, the event handlers as state transformers, the sequencer
    ([check] / [connect]) over a shared store, and the aggregator. *)

From Stdlib Require Import ZArith QArith List String Bool Lia.
From Stdlib Require Import Strings.Byte.
From stdpp Require Import base option list.
Import ListNotations.

Local Open Scope string_scope.
Local Open Scope list_scope.
Local Open Scope Z_scope.

(** ** JavaScript values the program looks at *)

(** A Node [Buffer] is a sequence of bytes. *)
Definition Buffer := list byte.

(** [Buffer.from(s, encoding)] at the default [encoding], utf8: strings are
    kept as the bytes of their utf8 encoding.  Other encodings are not
    covered: no statement below depends on the bytes a string converts
    to. *)
Definition Buffer_from (s : string) (encoding : string) : Buffer :=
  list_byte_of_string s.

(** [buf.toString(encoding)]. *)
Definition Buffer_toString (b : Buffer) (encoding : string) : string :=
  string_of_list_byte b.

(** [request] and [exitRequest] are documented as [string|Buffer]. *)
Inductive Payload :=
| PString (str : string)
| PBuffer (buf : Buffer).

(** [match] is documented as [string|Buffer|RegExp|Function].  A regular
    expression is kept as its [test] method, a predicate as the truthiness of
    what it returns, both as functions of the text or buffer they are given:
    a regular expression with the [g] or [y] flag, whose [test] also depends
    on the [lastIndex] left by earlier calls, and a predicate that keeps
    state of its own, are not covered. *)
Inductive Matcher :=
| MString (str : string)
| MBuffer (buf : Buffer)
| MRegExp (test : string -> bool)
| MFunction (fn : Buffer -> bool).

(** The terminal faults the program creates itself, and those the transport
    reports through the socket's [error] event. *)
Inductive Err :=
| ResponseTimeout            (* Error('Response timeout') *)
| MaxResponseBytesExceeded   (* new Error('Max Response Bytes Exceeded') *)
| RequestTimeout             (* Error('Request timeout') *)
| TransportError (msg : string).

(** JavaScript truthiness ([ToBoolean]) at the types above; [None] is a key
    the caller left out, which reads as [undefined]. *)
Definition truthy_string (str : string) : bool :=
  negb (String.eqb str "").

Definition truthy_payload (v : option Payload) : bool :=
  match v with
  | None => false
  | Some (PString str) => truthy_string str
  | Some (PBuffer _) => true
  end.

Definition truthy_matcher (v : option Matcher) : bool :=
  match v with
  | None => false
  | Some (MString str) => truthy_string str
  | Some (MBuffer _) | Some (MRegExp _) | Some (MFunction _) => true
  end.

Definition truthy_bool (v : option bool) : bool :=
  match v with
  | None => false
  | Some b => b
  end.

Definition truthy_number (v : option Z) : bool :=
  match v with
  | None => false
  | Some n => negb (n =? 0)
  end.

(** ** Options *)

(** The object the caller passes to [probe]. *)
Record RawOptions := {
  raw_address : option string;
  raw_port : option Z;
  raw_attempts : option Z;
  raw_timeout : option Z;
  raw_responseTimeout : option Z;
  raw_encoding : option string;
  raw_request : option Payload;
  raw_exitRequest : option Payload;
  raw_match : option Matcher;
  raw_maxResponseBytes : option Z;
  raw_capture : option bool;
  raw_noDelay : option bool
}.

(** [{}] *)
Definition no_options : RawOptions :=
  {| raw_address := None; raw_port := None; raw_attempts := None;
     raw_timeout := None; raw_responseTimeout := None; raw_encoding := None;
     raw_request := None; raw_exitRequest := None; raw_match := None;
     raw_maxResponseBytes := None; raw_capture := None; raw_noDelay := None |}.

(** [let isProbe = !!(options.request || options.exitRequest ||
    options.capture || options.match || options.maxResponseBytes)],
    evaluated on the caller's object, before the defaults are merged. *)
Definition isProbe (options : RawOptions) : bool :=
  truthy_payload (raw_request options)
  || truthy_payload (raw_exitRequest options)
  || truthy_bool (raw_capture options)
  || truthy_matcher (raw_match options)
  || truthy_number (raw_maxResponseBytes options).

(** The options after [{ ...defaults, ...options }] and the three
    string-to-Buffer conversions.  [responseTimeout] has no default; the
    spread copies it when the caller gave it. *)
Record Options := {
  address : string;
  port : Z;
  attempts : Z;
  timeout : Z;
  encoding : string;
  request : Buffer;
  exitRequest : option Buffer;
  match_ : option Matcher;
  exit : Buffer;
  maxResponseBytes : Z;
  capture : bool;
  noDelay : bool;
  responseTimeout : option Z
}.

Definition to_buffer (encoding : string) (p : Payload) : Buffer :=
  match p with
  | PString str => Buffer_from str encoding
  | PBuffer buf => buf
  end.

Definition normalize_match (encoding : string) (m : Matcher) : Matcher :=
  match m with
  | MString str => MBuffer (Buffer_from str encoding)
  | other => other
  end.

Definition merge_defaults (options : RawOptions) : Options :=
  let enc := default "utf8" (raw_encoding options) in
  {| address := default "localhost" (raw_address options);
     port := default 80 (raw_port options);
     attempts := default 1 (raw_attempts options);
     timeout := default 5000 (raw_timeout options);
     encoding := enc;
     request := default [] (to_buffer enc <$> raw_request options);
     exitRequest := to_buffer enc <$> raw_exitRequest options;
     match_ := normalize_match enc <$> raw_match options;
     exit := [];
     maxResponseBytes := default 50000 (raw_maxResponseBytes options);
     capture := default false (raw_capture options);
     noDelay := default true (raw_noDelay options);
     responseTimeout := raw_responseTimeout options |}.

(** [ping]: [probe({ attempts: 10, ...options }, callback)]. *)
Definition ping_options (options : RawOptions) : RawOptions :=
  {| raw_address := raw_address options;
     raw_port := raw_port options;
     raw_attempts := Some (default 10 (raw_attempts options));
     raw_timeout := raw_timeout options;
     raw_responseTimeout := raw_responseTimeout options;
     raw_encoding := raw_encoding options;
     raw_request := raw_request options;
     raw_exitRequest := raw_exitRequest options;
     raw_match := raw_match options;
     raw_maxResponseBytes := raw_maxResponseBytes options;
     raw_capture := raw_capture options;
     raw_noDelay := raw_noDelay options |}.

(** ** Time *)

(** [process.hrtime(start)]: seconds and nanoseconds elapsed since [start]. *)
Definition hrtime := (Z * Z)%type.

(** [(t[0] * 1e9 + t[1]) / 1e6]: milliseconds, as an exact rational where the
    program has a double. *)
Definition to_ms (t : hrtime) : Q :=
  (inject_Z (fst t * 10 ^ 9 + snd t) / inject_Z (10 ^ 6))%Q.

(** ** Results *)

(** One element of [results].  A field that is [None] is [undefined] when
    read (the key is missing or holds [undefined]). *)
Record Result := {
  seq : nat;
  conTime : option Q;
  time : option Q;
  rmatch : option bool;      (* match *)
  err : option Err;
  bytes : option nat;
  data : option Buffer
}.

(** ** Buffers *)

Definition Buffer_length (b : Buffer) : Z := Z.of_nat (length b).

(** [buf.slice(0, end)]: a negative [end] counts from the end of the buffer,
    and the result is clamped to the buffer. *)
Definition Buffer_slice0 (b : Buffer) (end_ : Z) : Buffer :=
  let len := Buffer_length b in
  let final := if end_ <? 0 then Z.max (len + end_) 0 else Z.min end_ len in
  firstn (Z.to_nat final) b.

Definition byte_eqb (x y : byte) : bool := Byte.eqb x y.

Fixpoint starts_with (b pat : Buffer) : bool :=
  match pat, b with
  | [], _ => true
  | _ :: _, [] => false
  | p :: pat', x :: b' => byte_eqb x p && starts_with b' pat'
  end.

(** [buf.includes(pat)] for a Buffer [pat]. *)
Fixpoint Buffer_includes (b pat : Buffer) : bool :=
  starts_with b pat ||
  match b with
  | [] => false
  | _ :: b' => Buffer_includes b' pat
  end.

(** The three-way test of [onData] against the response buffer. *)
Definition test_match (options : Options) (m : Matcher) (responseBuffer : Buffer) : bool :=
  match m with
  | MBuffer pat => Buffer_includes responseBuffer pat
  | MRegExp test => test (Buffer_toString responseBuffer (encoding options))
  | MFunction fn => fn responseBuffer
  | MString _ => false
  end.

(** ** One attempt *)

(** The socket [s] as far as the program drives it, and the variables the
    probe branch of [connect] closes over. *)
Record Attempt := {
  (* net.Socket *)
  written : list Buffer;            (* s.write calls, oldest first *)
  ended : bool;                     (* s.end() was called *)
  destroyed : bool;                 (* s.destroy() was called *)
  idleTimeout : Z;                  (* s.setTimeout(options.timeout, ...) *)
  (* closure of the probe branch *)
  didPushResults : bool;
  connectTime : option Q;
  didMatch : bool;
  didExceedResponseBytes : bool;
  didRequestExit : bool;
  lastErr : option Err;
  responseBuffer : option Buffer;
  responseTimeoutRef : option Z     (* pending timer and its delay *)
}.

(** [var s = new net.Socket(); ...] up to the registration of the handlers.
    In the probe branch the response timer is armed here. *)
Definition new_attempt (probeMode : bool) (options : Options) : Attempt :=
  {| written := []; ended := false; destroyed := false;
     idleTimeout := timeout options;
     didPushResults := false; connectTime := None; didMatch := false;
     didExceedResponseBytes := false; didRequestExit := false;
     lastErr := None; responseBuffer := None;
     responseTimeoutRef := if probeMode then Some (timeout options) else None |}.

Definition s_write (b : Buffer) (a : Attempt) : Attempt :=
  {| written := written a ++ [b]; ended := ended a; destroyed := destroyed a;
     idleTimeout := idleTimeout a;
     didPushResults := didPushResults a; connectTime := connectTime a;
     didMatch := didMatch a;
     didExceedResponseBytes := didExceedResponseBytes a;
     didRequestExit := didRequestExit a; lastErr := lastErr a;
     responseBuffer := responseBuffer a;
     responseTimeoutRef := responseTimeoutRef a |}.

Definition s_end (a : Attempt) : Attempt :=
  {| written := written a; ended := true; destroyed := destroyed a;
     idleTimeout := idleTimeout a;
     didPushResults := didPushResults a; connectTime := connectTime a;
     didMatch := didMatch a;
     didExceedResponseBytes := didExceedResponseBytes a;
     didRequestExit := didRequestExit a; lastErr := lastErr a;
     responseBuffer := responseBuffer a;
     responseTimeoutRef := responseTimeoutRef a |}.

Definition s_destroy (a : Attempt) : Attempt :=
  {| written := written a; ended := ended a; destroyed := true;
     idleTimeout := idleTimeout a;
     didPushResults := didPushResults a; connectTime := connectTime a;
     didMatch := didMatch a;
     didExceedResponseBytes := didExceedResponseBytes a;
     didRequestExit := didRequestExit a; lastErr := lastErr a;
     responseBuffer := responseBuffer a;
     responseTimeoutRef := responseTimeoutRef a |}.

Definition clearTimeout (a : Attempt) : Attempt :=
  {| written := written a; ended := ended a; destroyed := destroyed a;
     idleTimeout := idleTimeout a;
     didPushResults := didPushResults a; connectTime := connectTime a;
     didMatch := didMatch a;
     didExceedResponseBytes := didExceedResponseBytes a;
     didRequestExit := didRequestExit a; lastErr := lastErr a;
     responseBuffer := responseBuffer a;
     responseTimeoutRef := None |}.

Definition set_didPushResults (a : Attempt) : Attempt :=
  {| written := written a; ended := ended a; destroyed := destroyed a;
     idleTimeout := idleTimeout a;
     didPushResults := true; connectTime := connectTime a;
     didMatch := didMatch a;
     didExceedResponseBytes := didExceedResponseBytes a;
     didRequestExit := didRequestExit a; lastErr := lastErr a;
     responseBuffer := responseBuffer a;
     responseTimeoutRef := responseTimeoutRef a |}.

Definition set_connectTime (t : Q) (a : Attempt) : Attempt :=
  {| written := written a; ended := ended a; destroyed := destroyed a;
     idleTimeout := idleTimeout a;
     didPushResults := didPushResults a; connectTime := Some t;
     didMatch := didMatch a;
     didExceedResponseBytes := didExceedResponseBytes a;
     didRequestExit := didRequestExit a; lastErr := lastErr a;
     responseBuffer := responseBuffer a;
     responseTimeoutRef := responseTimeoutRef a |}.

Definition set_didMatch (a : Attempt) : Attempt :=
  {| written := written a; ended := ended a; destroyed := destroyed a;
     idleTimeout := idleTimeout a;
     didPushResults := didPushResults a; connectTime := connectTime a;
     didMatch := true;
     didExceedResponseBytes := didExceedResponseBytes a;
     didRequestExit := didRequestExit a; lastErr := lastErr a;
     responseBuffer := responseBuffer a;
     responseTimeoutRef := responseTimeoutRef a |}.

Definition set_didExceedResponseBytes (a : Attempt) : Attempt :=
  {| written := written a; ended := ended a; destroyed := destroyed a;
     idleTimeout := idleTimeout a;
     didPushResults := didPushResults a; connectTime := connectTime a;
     didMatch := didMatch a;
     didExceedResponseBytes := true;
     didRequestExit := didRequestExit a; lastErr := lastErr a;
     responseBuffer := responseBuffer a;
     responseTimeoutRef := responseTimeoutRef a |}.

Definition set_didRequestExit (a : Attempt) : Attempt :=
  {| written := written a; ended := ended a; destroyed := destroyed a;
     idleTimeout := idleTimeout a;
     didPushResults := didPushResults a; connectTime := connectTime a;
     didMatch := didMatch a;
     didExceedResponseBytes := didExceedResponseBytes a;
     didRequestExit := true; lastErr := lastErr a;
     responseBuffer := responseBuffer a;
     responseTimeoutRef := responseTimeoutRef a |}.

(** [lastErr = lastErr ?? e] *)
Definition latch_lastErr (e : Err) (a : Attempt) : Attempt :=
  {| written := written a; ended := ended a; destroyed := destroyed a;
     idleTimeout := idleTimeout a;
     didPushResults := didPushResults a; connectTime := connectTime a;
     didMatch := didMatch a;
     didExceedResponseBytes := didExceedResponseBytes a;
     didRequestExit := didRequestExit a;
     lastErr := match lastErr a with Some e0 => Some e0 | None => Some e end;
     responseBuffer := responseBuffer a;
     responseTimeoutRef := responseTimeoutRef a |}.

Definition set_responseBuffer (b : Buffer) (a : Attempt) : Attempt :=
  {| written := written a; ended := ended a; destroyed := destroyed a;
     idleTimeout := idleTimeout a;
     didPushResults := didPushResults a; connectTime := connectTime a;
     didMatch := didMatch a;
     didExceedResponseBytes := didExceedResponseBytes a;
     didRequestExit := didRequestExit a; lastErr := lastErr a;
     responseBuffer := Some b;
     responseTimeoutRef := responseTimeoutRef a |}.

(** [if (options.exitRequest && !didRequestExit) { didRequestExit = true;
    try { s.write(options.exitRequest) } catch (e) {} }]; after the
    conversions an [exitRequest] that is present is a Buffer, hence truthy. *)
Definition request_exit (options : Options) (a : Attempt) : Attempt :=
  match exitRequest options with
  | Some x => if didRequestExit a then a else s_write x (set_didRequestExit a)
  | None => a
  end.

(** ** Event handlers of the probe branch *)

(** What a finalize trigger passes to [probeResultCheck]: [{}] or
    [{ err: ... }]. *)
Definition TriggerFields := option Err.

(** [probeResultCheck(result)].  Returns the attempt afterwards and the
    object pushed on [results], if any; the caller of the handler then does
    [i++; check(options, callback)]. *)
Definition probeResultCheck (options : Options) (i : nat) (now : hrtime)
    (result : TriggerFields) (a : Attempt) : Attempt * option Result :=
  let a := clearTimeout a in
  if didPushResults a then (a, None)
  else
    let a := set_didPushResults a in
    let a := request_exit options a in
    let a := s_end a in
    let endTime := to_ms now in
    (a, Some {| seq := i;
                conTime := connectTime a;
                time := match connectTime a with
                        | None => None
                        | Some _ => Some endTime
                        end;
                rmatch := if truthy_matcher (match_ options)
                          then Some (didMatch a) else None;
                err := match result with
                       | Some e => Some e
                       | None => lastErr a
                       end;
                bytes := length <$> responseBuffer a;
                data := if capture options then responseBuffer a else None |}).

(** The callback of [setTimeout(..., options.timeout)]. *)
Definition onResponseTimer (options : Options) (i : nat) (now : hrtime)
    (a : Attempt) : Attempt * option Result :=
  if didPushResults a then (a, None)
  else probeResultCheck options i now (Some ResponseTimeout)
         (latch_lastErr ResponseTimeout a).

(** [onConnect]; it also registers [onData], which from then on finds
    [responseBuffer] defined. *)
Definition onConnect (options : Options) (now : hrtime) (a : Attempt) : Attempt :=
  let a := set_connectTime (to_ms now) a in
  let a := s_write (request options) a in
  set_responseBuffer [] a.

(** The length test of [onData]: append the chunk if it fits, else keep as
    much of it as fits and flag the overflow. *)
Definition append_chunk (options : Options) (buf d : Buffer) (a : Attempt) : Attempt :=
  let max := maxResponseBytes options in
  if Buffer_length buf + Buffer_length d <=? max then
    set_responseBuffer (buf ++ d) a
  else if (Buffer_length buf >=? max) && (Buffer_length d >? 0) then
    set_didExceedResponseBytes a
  else if Buffer_length d >? 0 then
    set_responseBuffer (buf ++ Buffer_slice0 d (max - Buffer_length buf))
      (set_didExceedResponseBytes a)
  else a.

(** [if (responseBuffer.length > options.maxResponseBytes) ...] *)
Definition truncate_to_cap (options : Options) (a : Attempt) : Attempt :=
  let max := maxResponseBytes options in
  let buf := default [] (responseBuffer a) in
  if Buffer_length buf >? max then
    set_responseBuffer (Buffer_slice0 buf max) (set_didExceedResponseBytes a)
  else a.

Definition append_capped (options : Options) (buf d : Buffer) (a : Attempt) : Attempt :=
  truncate_to_cap options (append_chunk options buf d a).

Definition check_match (options : Options) (a : Attempt) : Attempt :=
  match match_ options with
  | Some m =>
      if truthy_matcher (Some m)
         && test_match options m (default [] (responseBuffer a))
      then s_end (request_exit options (set_didMatch a))
      else a
  | None => a
  end.

Definition check_exceeded (options : Options) (a : Attempt) : Attempt :=
  if didExceedResponseBytes a then
    s_end (request_exit options (latch_lastErr MaxResponseBytesExceeded a))
  else a.

(** [onData(data)].  Before [onConnect] ran there is no listener. *)
Definition onData (options : Options) (d : Buffer) (a : Attempt) : Attempt :=
  match responseBuffer a with
  | None => a
  | Some buf =>
      if didPushResults a then a
      else check_exceeded options
             (check_match options (append_capped options buf d a))
  end.

Definition onError (e : Err) (a : Attempt) : Attempt :=
  s_destroy (latch_lastErr e a).

Definition onFinish (a : Attempt) : Attempt := s_destroy a.

(** What the transport and the timers deliver to one attempt. *)
Inductive Event :=
| EvConnect
| EvData (d : Buffer)
| EvError (e : Err)
| EvFinish
| EvClose
| EvTimeout          (* the socket's idle timeout, s.setTimeout *)
| EvResponseTimer.   (* the timer behind responseTimeoutRef *)

Definition probe_event (options : Options) (i : nat) (now : hrtime)
    (ev : Event) (a : Attempt) : Attempt * option Result :=
  match ev with
  | EvConnect => (onConnect options now a, None)
  | EvData d => (onData options d a, None)
  | EvError e => (onError e a, None)
  | EvFinish => (onFinish a, None)
  | EvClose => probeResultCheck options i now None a
  | EvTimeout => probeResultCheck options i now None a
  | EvResponseTimer => onResponseTimer options i now a
  end.

(** ** Event handlers of the plain branch *)

Definition plain_result (i : nat) (t : option Q) (e : option Err) : Result :=
  {| seq := i; conTime := None; time := t; rmatch := None; err := e;
     bytes := None; data := None |}.

Definition plain_event (i : nat) (now : hrtime) (ev : Event) (a : Attempt)
    : Attempt * option Result :=
  match ev with
  | EvConnect => (s_destroy a, Some (plain_result i (Some (to_ms now)) None))
  | EvError e => (s_destroy a, Some (plain_result i None (Some e)))
  | EvTimeout => (s_destroy a, Some (plain_result i None (Some RequestTimeout)))
  | _ => (a, None)
  end.

Definition handle (probeMode : bool) (options : Options) (i : nat)
    (now : hrtime) (ev : Event) (a : Attempt) : Attempt * option Result :=
  if probeMode then probe_event options i now ev a
  else plain_event i now ev a.

(** One attempt under a sequence of events, with [i] as it stands while the
    attempt is the current one: the attempt afterwards and what it pushed. *)
Fixpoint run_attempt (probeMode : bool) (options : Options) (i : nat)
    (evs : list (hrtime * Event)) (a : Attempt) : Attempt * list Result :=
  match evs with
  | [] => (a, [])
  | (now, ev) :: evs' =>
      let '(a', r) := handle probeMode options i now ev a in
      let '(a'', rs) := run_attempt probeMode options i evs' a' in
      (a'', from_option (fun x => [x]) [] r ++ rs)
  end.

(** The events that call [probeResultCheck]. *)
Definition reaches_finalize (ev : Event) : bool :=
  match ev with
  | EvClose | EvTimeout | EvResponseTimer => true
  | _ => false
  end.

(** ** The aggregator *)

(** A JavaScript number that a division may produce. *)
Inductive Num :=
| Fin (q : Q)
| NaN
| Infinity (negative : bool).

Definition Qlt_bool (x y : Q) : bool :=
  (Qnum x * QDen y <? Qnum y * QDen x)%Z.

(** [a > b] and [a < b] where either side may be [undefined]: [undefined]
    converts to NaN and the comparison is false. *)
Definition js_gt (a b : option Q) : bool :=
  match a, b with
  | Some x, Some y => Qlt_bool y x
  | _, _ => false
  end.

Definition js_lt (a b : option Q) : bool :=
  match a, b with
  | Some x, Some y => Qlt_bool x y
  | _, _ => false
  end.

(** [prev + v] where [v] may be [undefined]. *)
Definition js_add (prev : Num) (v : option Q) : Num :=
  match prev, v with
  | Fin x, Some y => Fin (x + y)
  | Fin _, None => NaN
  | other, _ => other
  end.

(** [a / n] for an integer [n]. *)
Definition js_div (a : Num) (n : Z) : Num :=
  match a with
  | Fin x =>
      if n =? 0 then
        if Qeq_bool x 0 then NaN else Infinity (Qlt_bool x 0)
      else Fin (x / inject_Z n)
  | NaN => NaN
  | Infinity neg => if n <? 0 then Infinity (negb neg) else Infinity neg
  end.

Inductive Exn :=
| CallbackRequired   (* Error('Callback function is required') *)
| TypeError.         (* reading a property of undefined *)

Module Report.

(** The fields only the probe branch adds. *)
Record probe_fields := {
  matches : nat;
  errors : nat;
  conAvg : Num;
  conMax : option Q;
  conMin : option Q
}.

Record t := {
  address : string;
  port : Z;
  attempts : Z;
  dropped : nat;
  avg : Num;
  max : option Q;
  min : option Q;
  probe : option probe_fields;
  results : list Result
}.

End Report.

(** [results.reduce(f, init)] is [fold_left f results init]. *)
Definition count_dropped (results : list Result) : nat :=
  fold_left (fun prev curr =>
               match time curr with None => (prev + 1)%nat | Some _ => prev end)
            results 0%nat.

Definition sum_time (results : list Result) : Q :=
  fold_left (fun prev curr =>
               match time curr with None => prev | Some t => (prev + t)%Q end)
            results 0%Q.

Definition reduce_max (field : Result -> option Q) (results : list Result)
    (init : option Q) : option Q :=
  fold_left (fun prev curr => if js_gt prev (field curr) then prev else field curr)
            results init.

Definition reduce_min (field : Result -> option Q) (results : list Result)
    (init : option Q) : option Q :=
  fold_left (fun prev curr => if js_lt prev (field curr) then prev else field curr)
            results init.

Definition sum_conTime (results : list Result) : Num :=
  fold_left (fun prev curr =>
               match time curr with None => prev | Some _ => js_add prev (conTime curr) end)
            results (Fin 0).

Definition count_matches (results : list Result) : nat :=
  length (filter (fun r => rmatch r = Some true) results).

Definition count_errors (results : list Result) : nat :=
  length (filter (fun r => is_Some (err r)) results).

(** The [else] branch of [check].  [results[0].time] throws when [results]
    is empty. *)
Definition aggregate (probeMode : bool) (options : Options)
    (results : list Result) : Exn + Report.t :=
  let dropped := count_dropped results in
  let avg := sum_time results in
  match results with
  | [] => inl TypeError
  | first :: _ =>
      let max := reduce_max time results (time first) in
      let min := reduce_min time results (time first) in
      let live := Z.of_nat (length results) - Z.of_nat dropped in
      let avg := js_div (Fin avg) live in
      inr {| Report.address := address options;
             Report.port := port options;
             Report.attempts := attempts options;
             Report.dropped := dropped;
             Report.avg := avg;
             Report.max := max;
             Report.min := min;
             Report.probe :=
               if probeMode then
                 Some {| Report.matches := count_matches results;
                         Report.errors := count_errors results;
                         Report.conAvg := js_div (sum_conTime results) live;
                         Report.conMax := reduce_max conTime results (conTime first);
                         Report.conMin := reduce_min conTime results (conTime first) |}
               else None;
             Report.results := results |}
  end.

(** ** The sequencer *)

(** The variables of one [probe] call that its closures share, the attempts
    it has created (one socket and closure each, oldest first), and what it
    has handed to [callback] or thrown out of a handler. *)
Record World := {
  i : nat;
  results : list Result;
  sockets : list Attempt;
  reports : list Report.t;
  thrown : option Exn
}.

(** [connect(options, callback)]: a new socket and closure. *)
Definition connect (probeMode : bool) (options : Options) (w : World) : World :=
  {| i := i w; results := results w;
     sockets := sockets w ++ [new_attempt probeMode options];
     reports := reports w; thrown := thrown w |}.

(** [check(options, callback)] *)
Definition check (probeMode : bool) (options : Options) (w : World) : World :=
  if Z.of_nat (i w) <? attempts options then connect probeMode options w
  else
    match aggregate probeMode options (results w) with
    | inr out =>
        {| i := i w; results := results w; sockets := sockets w;
           reports := reports w ++ [out]; thrown := thrown w |}
    | inl e =>
        {| i := i w; results := results w; sockets := sockets w;
           reports := reports w; thrown := Some e |}
    end.

(** [results.push(r); i++; check(options, callback)], the tail of every
    handler that finalizes. *)
Definition push_and_check (probeMode : bool) (options : Options) (r : Result)
    (w : World) : World :=
  check probeMode options
    {| i := S (i w); results := results w ++ [r]; sockets := sockets w;
       reports := reports w; thrown := thrown w |}.

(** The transport capability and the timers, as the program relies on them:
    a destroyed socket emits nothing but [close], and a timer fires only
    while it is pending. *)
Definition emits (a : Attempt) (ev : Event) : bool :=
  match ev with
  | EvClose => true
  | EvResponseTimer => bool_decide (is_Some (responseTimeoutRef a))
  | _ => negb (destroyed a)
  end.

(** Event [ev] of the socket of attempt [k] reaches its handler. *)
Definition deliver (probeMode : bool) (options : Options) (w : World)
    (e : nat * hrtime * Event) : World :=
  let '(k, now, ev) := e in
  match thrown w with
  | Some _ => w
  | None =>
      match sockets w !! k with
      | None => w
      | Some a =>
          if emits a ev then
            let '(a', r) := handle probeMode options (i w) now ev a in
            let w' := {| i := i w; results := results w;
                         sockets := <[k := a']> (sockets w);
                         reports := reports w; thrown := thrown w |} in
            match r with
            | Some r => push_and_check probeMode options r w'
            | None => w'
            end
          else w
      end
  end.

(** [probe(options, callback)] up to its return: the first attempt is
    started without consulting [options.attempts]. *)
Definition probe (options : RawOptions) (callback_is_function : bool)
    : Exn + World :=
  if callback_is_function then
    inr (connect (isProbe options) (merge_defaults options)
           {| i := 0%nat; results := []; sockets := []; reports := [];
              thrown := None |})
  else inl CallbackRequired.

(** The call and everything the event loop delivers afterwards. *)
Definition run (options : RawOptions) (schedule : list (nat * hrtime * Event))
    (w : World) : World :=
  fold_left (deliver (isProbe options) (merge_defaults options)) schedule w.

(** ** Readings of the specification that are compared with the code *)

(** An option the caller supplied, whatever its value. *)
Definition caller_set (options : RawOptions) : Prop :=
  is_Some (raw_request options) \/ is_Some (raw_exitRequest options) \/
  is_Some (raw_capture options) \/ is_Some (raw_match options) \/
  is_Some (raw_maxResponseBytes options).

(** The values that make [isProbe] true, field by field. *)
Definition payload_counts (p : Payload) : Prop :=
  match p with
  | PString str => str <> ""
  | PBuffer _ => True
  end.

Definition matcher_counts (m : Matcher) : Prop :=
  match m with
  | MString str => str <> ""
  | _ => True
  end.

Definition caller_set_truthy (options : RawOptions) : Prop :=
  (exists p, raw_request options = Some p /\ payload_counts p) \/
  (exists p, raw_exitRequest options = Some p /\ payload_counts p) \/
  raw_capture options = Some true \/
  (exists m, raw_match options = Some m /\ matcher_counts m) \/
  (exists n, raw_maxResponseBytes options = Some n /\ n <> 0).

(** The maximum of the defined times, [None] when there is none. *)
Definition max_defined (field : Result -> option Q) (results : list Result)
    : option Q :=
  fold_left (fun acc r =>
               match acc, field r with
               | Some x, Some y => Some (if Qlt_bool x y then y else x)
               | None, v => v
               | acc, None => acc
               end) results None.

(** ** Inputs used in the examples *)

(** An [hrtime] reading of [n] milliseconds. *)
Definition ms (n : Z) : hrtime := (0, n * 10 ^ 6).

(** [{ request: str }], [{ capture: b }] *)
Definition with_request (str : string) : RawOptions :=
  {| raw_address := None; raw_port := None; raw_attempts := None;
     raw_timeout := None; raw_responseTimeout := None; raw_encoding := None;
     raw_request := Some (PString str); raw_exitRequest := None;
     raw_match := None; raw_maxResponseBytes := None; raw_capture := None;
     raw_noDelay := None |}.

Definition with_capture (b : bool) : RawOptions :=
  {| raw_address := None; raw_port := None; raw_attempts := None;
     raw_timeout := None; raw_responseTimeout := None; raw_encoding := None;
     raw_request := None; raw_exitRequest := None;
     raw_match := None; raw_maxResponseBytes := None; raw_capture := Some b;
     raw_noDelay := None |}.

(** [{ request: 'PING', responseTimeout: 200 }] *)
Definition ping_200 : RawOptions :=
  {| raw_address := None; raw_port := None; raw_attempts := None;
     raw_timeout := None; raw_responseTimeout := Some 200;
     raw_encoding := None;
     raw_request := Some (PString "PING"); raw_exitRequest := None;
     raw_match := None; raw_maxResponseBytes := None; raw_capture := None;
     raw_noDelay := None |}.

(** [{ request: 'PING', match: 'PONG', capture: true, maxResponseBytes: n,
    attempts: k }] *)
Definition ping_pong (n k : Z) : RawOptions :=
  {| raw_address := None; raw_port := None; raw_attempts := Some k;
     raw_timeout := None; raw_responseTimeout := None; raw_encoding := None;
     raw_request := Some (PString "PING"); raw_exitRequest := None;
     raw_match := Some (MString "PONG"); raw_maxResponseBytes := Some n;
     raw_capture := Some true; raw_noDelay := None |}.

(** [{ attempts: k }] *)
Definition with_attempts (k : Z) : RawOptions :=
  {| raw_address := None; raw_port := None; raw_attempts := Some k;
     raw_timeout := None; raw_responseTimeout := None; raw_encoding := None;
     raw_request := None; raw_exitRequest := None;
     raw_match := None; raw_maxResponseBytes := None; raw_capture := None;
     raw_noDelay := None |}.

(** Three results of the plain branch, the middle one timed out. *)
Definition three_times (t0 t1 t2 : option Q) : list Result :=
  [plain_result 0 t0 None; plain_result 1 t1 (Some RequestTimeout);
   plain_result 2 t2 None].

(** A connect followed by one chunk of three bytes. *)
Definition three_bytes_cap_two : list (hrtime * Event) :=
  [(ms 1, EvConnect); (ms 2, EvData (list_byte_of_string "PON"))].

(** Two attempts: a refused connect, then a matching response, with a late
    timer of the first socket firing during the second attempt. *)
Definition refused_then_matched : list (nat * hrtime * Event) :=
  [(0%nat, ms 1, EvError (TransportError "ECONNREFUSED"));
   (0%nat, ms 2, EvClose);
   (1%nat, ms 1, EvConnect);
   (0%nat, ms 5000, EvResponseTimer);
   (1%nat, ms 2, EvData (list_byte_of_string "PONG"));
   (1%nat, ms 3, EvFinish);
   (1%nat, ms 4, EvClose);
   (1%nat, ms 5000, EvTimeout)].

(** ** Notions used in the statements *)

(** The object literal of [results.push], read off the closure. *)
Definition recorded (options : Options) (n : nat) (now : hrtime)
    (result : TriggerFields) (a : Attempt) : Result :=
  {| seq := n;
     conTime := connectTime a;
     time := match connectTime a with
             | None => None
             | Some _ => Some (to_ms now)
             end;
     rmatch := if truthy_matcher (match_ options)
               then Some (didMatch a) else None;
     err := match result with
            | Some e => Some e
            | None => lastErr a
            end;
     bytes := length <$> responseBuffer a;
     data := if capture options then responseBuffer a else None |}.

(** Events up to, and not including, the connect and any finalize trigger. *)
Definition is_connect (ev : Event) : bool :=
  match ev with EvConnect => true | _ => false end.

(** The first [error] event of a sequence, which is what [lastErr] holds
    when nothing else has set it. *)
Fixpoint first_error (evs : list (hrtime * Event)) : option Err :=
  match evs with
  | [] => None
  | (_, EvError e) :: _ => Some e
  | _ :: evs' => first_error evs'
  end.

Definition before_connect (evs : list (hrtime * Event)) : bool :=
  forallb (fun e => negb (reaches_finalize (snd e)) && negb (is_connect (snd e)))
          evs.

(** The response buffer, and what a result reports of it, stay within
    [maxResponseBytes]. *)
Definition within_cap (options : Options) (a : Attempt) : Prop :=
  forall b, responseBuffer a = Some b ->
            Buffer_length b <= maxResponseBytes options.

Definition result_within_cap (options : Options) (r : Result) : Prop :=
  (forall k, bytes r = Some k -> Z.of_nat k <= maxResponseBytes options) /\
  (forall d, data r = Some d -> Buffer_length d <= maxResponseBytes options).

(** Everything the chunks carry, in order. *)
Definition received (chunks : list (hrtime * Buffer)) : Buffer :=
  concat (map snd chunks).

(** The data received strictly exceeds [maxResponseBytes]. *)
Definition overflows (options : Options) (all : Buffer) : bool :=
  Buffer_length all >? maxResponseBytes options.

(** An attempt that has pushed its result, and one that has not.  The probe
    branch has its guard; the plain branch destroys the socket in every
    handler that pushes. *)
Definition spent (probeMode : bool) (a : Attempt) : Prop :=
  if probeMode then didPushResults a = true else destroyed a = true.

Definition live (probeMode : bool) (a : Attempt) : Prop :=
  if probeMode then didPushResults a = false else destroyed a = false.

(** The number of attempts a call makes: the first one unconditionally, then
    as long as [i < options.attempts]. *)
Definition attempts_made (options : Options) : nat :=
  Z.to_nat (Z.max 1 (attempts options)).

(** The invariant of the sequencer: [results] holds one result per finished
    attempt, in order; every older attempt has pushed; and either the current
    attempt is pending and the callback has not been called, or every attempt
    has been made and the callback has been called once, with [results]. *)
Record sequenced (probeMode : bool) (options : Options) (w : World) : Prop := {
  seq_thrown : thrown w = None;
  seq_length : length (results w) = i w;
  seq_order : forall k r, results w !! k = Some r -> seq r = k;
  seq_spent : forall k a, (k < i w)%nat -> sockets w !! k = Some a ->
                          spent probeMode a;
  seq_phase :
    ((i w < attempts_made options)%nat /\ reports w = [] /\
     length (sockets w) = S (i w) /\
     exists a, sockets w !! i w = Some a /\ live probeMode a) \/
    (i w = attempts_made options /\ length (sockets w) = i w /\
     exists out, reports w = [out] /\ Report.results out = results w)
}.

(** The event that finalizes a live attempt in either branch. *)
Definition closing (probeMode : bool) : Event :=
  if probeMode then EvClose else EvTimeout.

(** One closing event for each of the first [n] attempts, in order. *)
Definition settle (probeMode : bool) (now : hrtime) (n : nat)
    : list (nat * hrtime * Event) :=
  map (fun k => (k, now, closing probeMode)) (List.seq 0 n).

(** ** Notions used in the further properties *)

(** The store when [probe] returns: one socket, nothing recorded. *)
Definition started (options : RawOptions) : World :=
  connect (isProbe options) (merge_defaults options)
    {| i := 0%nat; results := []; sockets := []; reports := [];
       thrown := None |}.

(** [pat] occurs in [b] as a contiguous run of bytes. *)
Definition contains (b pat : Buffer) : Prop :=
  exists pre post, b = pre ++ pat ++ post.


(** An [hrtime] reading in nanoseconds. *)
Definition total_ns (t : hrtime) : Z := fst t * 10 ^ 9 + snd t.

(** The times of the attempts that were not dropped, in order. *)
Definition defined_times (field : Result -> option Q) (rs : list Result)
    : list Q :=
  omap field rs.

(** A result as the plain branch pushes it: a time or an error, never both,
    and none of the probe fields. *)
Definition plain_shape (r : Result) : Prop :=
  conTime r = None /\ rmatch r = None /\ bytes r = None /\ data r = None /\
  ((is_Some (time r) /\ err r = None) \/ (time r = None /\ is_Some (err r))).

(** A result as the probe branch pushes it: [time], [conTime] and [bytes]
    come together; [data] is there only when capturing, and is what [bytes]
    counts; [match] is there exactly when a match is configured. *)
Definition probe_shape (options : Options) (r : Result) : Prop :=
  (is_Some (time r) <-> is_Some (conTime r)) /\
  (is_Some (bytes r) <-> is_Some (conTime r)) /\
  (is_Some (data r) <-> capture options = true /\ is_Some (conTime r)) /\
  (forall d k, data r = Some d -> bytes r = Some k -> length d = k) /\
  (is_Some (rmatch r) <-> truthy_matcher (match_ options) = true).


(** An attempt that has finalized holds no pending response timer and has
    ended its socket. *)
Definition released (a : Attempt) : Prop :=
  didPushResults a = true ->
  ended a = true /\ responseTimeoutRef a = None.

(** Connected attempts, and only they, have a response buffer. *)
Definition buffer_iff_connected (a : Attempt) : Prop :=
  is_Some (connectTime a) <-> is_Some (responseBuffer a).

(** An upper bound, and a lower bound, of the defined values of a field. *)
Definition upper_bound (field : Result -> option Q) (rs : list Result)
    (m : Q) : Prop :=
  forall r t, In r rs -> field r = Some t -> (t <= m)%Q.

Definition lower_bound (field : Result -> option Q) (rs : list Result)
    (m : Q) : Prop :=
  forall r t, In r rs -> field r = Some t -> (m <= t)%Q.

Definition attained (field : Result -> option Q) (rs : list Result)
    (m : Q) : Prop :=
  exists r, In r rs /\ field r = Some m.

(** The closure and socket after [probeResultCheck] returns. *)
Definition after_probeResultCheck (options : Options) (a : Attempt) : Attempt :=
  if didPushResults a then clearTimeout a
  else s_end (request_exit options (set_didPushResults (clearTimeout a))).

(** The chunks of the [data] events of a sequence, in order. *)
Fixpoint chunks_of (evs : list (hrtime * Event)) : list (hrtime * Buffer) :=
  match evs with
  | [] => []
  | (t, EvData d) :: evs' => (t, d) :: chunks_of evs'
  | _ :: evs' => chunks_of evs'
  end.

(** The events of a sequence that come before its first [error] event. *)
Fixpoint before_error (evs : list (hrtime * Event)) : list (hrtime * Event) :=
  match evs with
  | [] => []
  | (_, EvError _) :: _ => []
  | e :: evs' => e :: before_error evs'
  end.

(** The first fault of a connected attempt: the overflow when the data that
    arrived before any socket error exceeds the cap, and the first socket
    error otherwise. *)
Definition first_fault (options : Options) (evs : list (hrtime * Event))
    : option Err :=
  if overflows options (received (chunks_of (before_error evs)))
  then Some MaxResponseBytesExceeded
  else first_error evs.



(** * Mode derivation *)

Lemma truthy_string_spec (str : string) :
  truthy_string str = true <-> str <> "".
Proof.
  unfold truthy_string. rewrite negb_true_iff.
  destruct (String.eqb_spec str ""); split; congruence.
Qed.

Lemma truthy_payload_spec (v : option Payload) :
  truthy_payload v = true <-> exists p, v = Some p /\ payload_counts p.
Proof.
  destruct v as [[str|buf]|]; simpl.
  - rewrite truthy_string_spec. split.
    + intros H. exists (PString str). auto.
    + intros (p & Hp & Hc). inversion Hp; subst. exact Hc.
  - split; [intros _; exists (PBuffer buf); simpl; auto | auto].
  - split; [discriminate | intros (p & Hp & _); discriminate].
Qed.

Lemma truthy_matcher_spec (v : option Matcher) :
  truthy_matcher v = true <-> exists m, v = Some m /\ matcher_counts m.
Proof.
  destruct v as [m|]; simpl.
  - destruct m; simpl;
      try (split; [intros _; eexists; split; [reflexivity | exact I] | auto]).
    rewrite truthy_string_spec. split.
    + intros H. exists (MString str). auto.
    + intros (m & Hm & Hc). inversion Hm; subst. exact Hc.
  - split; [discriminate | intros (m & Hm & _); discriminate].
Qed.

Lemma truthy_number_spec (v : option Z) :
  truthy_number v = true <-> exists n, v = Some n /\ n <> 0.
Proof.
  destruct v as [n|]; simpl.
  - rewrite negb_true_iff, Z.eqb_neq. split.
    + intros H. exists n. auto.
    + intros (m & Hm & Hc). inversion Hm; subst. exact Hc.
  - split; [discriminate | intros (m & Hm & _); discriminate].
Qed.

(** C9, as amended: probe mode is active exactly when one of [request],
    [exitRequest], [capture], [match], [maxResponseBytes] in the caller's
    object is truthy: a non-empty string or any Buffer for [request] and
    [exitRequest], [true] for [capture], a non-empty string, a Buffer, a
    regular expression or a function for [match], a non-zero number for
    [maxResponseBytes].  Values the caller supplied that are falsy do not
    count. *)
Theorem C9_isProbe_iff_truthy (options : RawOptions) :
  isProbe options = true <-> caller_set_truthy options.
Proof.
  unfold isProbe, caller_set_truthy.
  rewrite !orb_true_iff, !truthy_payload_spec, truthy_matcher_spec,
    truthy_number_spec.
  destruct (raw_capture options) as [[|]|]; simpl; intuition congruence.
Qed.

(** C9, as stated, fails: [{ request: '' }] and [{ capture: false }] have an
    option set by the caller and run in plain mode. *)
Lemma C9_set_but_plain :
  (caller_set (with_request "") /\ isProbe (with_request "") = false) /\
  (caller_set (with_capture false) /\ isProbe (with_capture false) = false).
Proof.
  unfold caller_set; simpl.
  split; split; try reflexivity.
  - left. eexists; reflexivity.
  - right; right; left. eexists; reflexivity.
Qed.

(** * The response timer *)

(** C3: the response timer is armed with [options.timeout] whatever the
    caller gave as [responseTimeout]; the code never reads [responseTimeout].
    With [{ request: 'PING', responseTimeout: 200 }] the attempt runs in
    probe mode, the merged options carry [responseTimeout = 200], and the
    timer of the first attempt is pending with delay 5000. *)
Theorem C3_response_timer_armed_with_timeout :
  (forall options : Options,
      responseTimeoutRef (new_attempt true options) = Some (timeout options)) /\
  isProbe ping_200 = true /\
  responseTimeout (merge_defaults ping_200) = Some 200 /\
  exists w a,
    probe ping_200 true = inr w /\ sockets w = [a] /\
    responseTimeoutRef a = Some 5000.
Proof.
  split; [reflexivity|].
  split; [reflexivity|].
  split; [reflexivity|].
  eexists. eexists. split; [reflexivity|]. split; reflexivity.
Qed.

(** * The idle timeout *)

(** The plain branch records the idle timeout as an error. *)
Lemma plain_timeout_records_err (n : nat) (now : hrtime) (a : Attempt) :
  snd (plain_event n now EvTimeout a)
  = Some (plain_result n None (Some RequestTimeout)).
Proof. reflexivity. Qed.

(** * Aggregation over dropped attempts *)

(** [dropped] counts the results without a time. *)
Lemma count_dropped_spec (rs : list Result) :
  count_dropped rs = length (filter (fun r => time r = None) rs).
Proof.
  unfold count_dropped.
  enough (H : forall acc,
             fold_left (fun prev curr =>
                          match time curr with
                          | None => (prev + 1)%nat
                          | Some _ => prev
                          end) rs acc
             = (acc + length (filter (fun r => time r = None) rs))%nat)
    by (rewrite H; reflexivity).
  induction rs as [|r rs IH]; intros acc; cbn [fold_left].
  - cbn. lia.
  - rewrite IH, filter_cons. destruct (time r) eqn:E.
    + rewrite decide_False by congruence. reflexivity.
    + rewrite decide_True by reflexivity. cbn. lia.
Qed.

(** C8: the [max] and [min] reducers return [curr.time] whenever the
    comparison is false, which it is for an [undefined] time, so a dropped
    attempt resets them.  Times 10, dropped, 5 give [max = 5]; times 5,
    dropped, 10 give [min = 10]; a dropped last attempt leaves both
    [undefined].  [avg] and [dropped] skip the dropped attempt. *)
Theorem C8_dropped_attempt_resets_max_min :
  (exists out,
      aggregate false (merge_defaults no_options)
        (three_times (Some 10%Q) None (Some 5%Q)) = inr out /\
      Report.max out = Some 5%Q /\
      max_defined time (three_times (Some 10%Q) None (Some 5%Q)) = Some 10%Q /\
      Report.dropped out = 1%nat /\ Report.avg out = Fin (15 # 2)) /\
  (exists out,
      aggregate false (merge_defaults no_options)
        (three_times (Some 5%Q) None (Some 10%Q)) = inr out /\
      Report.min out = Some 10%Q) /\
  (exists out,
      aggregate false (merge_defaults no_options)
        [plain_result 0 (Some 10%Q) None;
         plain_result 1 None (Some RequestTimeout)] = inr out /\
      Report.max out = None /\ Report.min out = None).
Proof.
  repeat split; eexists; (split; [vm_compute; reflexivity|]);
    repeat split; vm_compute; reflexivity.
Qed.

(** * One attempt: the guard of [probeResultCheck] *)

Lemma run_attempt_app (probeMode : bool) (options : Options) (n : nat)
    (xs ys : list (hrtime * Event)) (a : Attempt) :
  run_attempt probeMode options n (xs ++ ys) a =
  (fst (run_attempt probeMode options n ys
          (fst (run_attempt probeMode options n xs a))),
   snd (run_attempt probeMode options n xs a) ++
   snd (run_attempt probeMode options n ys
          (fst (run_attempt probeMode options n xs a)))).
Proof.
  revert a. induction xs as [|[now ev] xs IH]; intros a; simpl.
  - destruct (run_attempt probeMode options n ys a); reflexivity.
  - destruct (handle probeMode options n now ev a) as [a' r].
    rewrite IH.
    destruct (run_attempt probeMode options n xs a') as [a1 r1]; simpl.
    destruct (run_attempt probeMode options n ys a1) as [a2 r2]; simpl.
    rewrite app_assoc. reflexivity.
Qed.

Lemma request_exit_didPushResults (options : Options) (a : Attempt) :
  didPushResults (request_exit options a) = didPushResults a.
Proof.
  unfold request_exit. destruct (exitRequest options); [|reflexivity].
  destruct (didRequestExit a); reflexivity.
Qed.

Lemma append_capped_didPushResults (options : Options) (buf d : Buffer)
    (a : Attempt) :
  didPushResults (append_capped options buf d a) = didPushResults a.
Proof.
  unfold append_capped, truncate_to_cap, append_chunk.
  repeat case_match; reflexivity.
Qed.

Lemma check_match_didPushResults (options : Options) (a : Attempt) :
  didPushResults (check_match options a) = didPushResults a.
Proof.
  unfold check_match. repeat case_match; simpl;
    rewrite ?request_exit_didPushResults; reflexivity.
Qed.

Lemma check_exceeded_didPushResults (options : Options) (a : Attempt) :
  didPushResults (check_exceeded options a) = didPushResults a.
Proof.
  unfold check_exceeded. case_match; simpl;
    rewrite ?request_exit_didPushResults; reflexivity.
Qed.

Lemma onData_didPushResults (options : Options) (d : Buffer) (a : Attempt) :
  didPushResults (onData options d a) = didPushResults a.
Proof.
  unfold onData. destruct (responseBuffer a); [|reflexivity].
  destruct (didPushResults a) eqn:E; [exact E|].
  rewrite check_exceeded_didPushResults, check_match_didPushResults,
    append_capped_didPushResults. exact E.
Qed.

(** Once the guard is set, no event of the attempt pushes a result, and the
    guard stays set. *)
Lemma finalized_is_silent (options : Options) (n : nat) (now : hrtime)
    (ev : Event) (a : Attempt) :
  didPushResults a = true ->
  snd (probe_event options n now ev a) = None /\
  didPushResults (fst (probe_event options n now ev a)) = true.
Proof.
  intros H. destruct ev; simpl; auto.
  - rewrite onData_didPushResults; auto.
  - unfold probeResultCheck; simpl. rewrite H. simpl; auto.
  - unfold probeResultCheck; simpl. rewrite H. simpl; auto.
  - unfold onResponseTimer. rewrite H. simpl; auto.
Qed.

(** An event that does not call [probeResultCheck] pushes nothing and
    leaves the guard as it is. *)
Lemma other_events_keep_guard (options : Options) (n : nat) (now : hrtime)
    (ev : Event) (a : Attempt) :
  reaches_finalize ev = false ->
  snd (probe_event options n now ev a) = None /\
  didPushResults (fst (probe_event options n now ev a)) = didPushResults a.
Proof.
  intros H. destruct ev; try discriminate; simpl; auto.
  rewrite onData_didPushResults; auto.
Qed.

(** The first call of [probeResultCheck] pushes and sets the guard. *)
Lemma first_finalize_pushes (options : Options) (n : nat) (now : hrtime)
    (ev : Event) (a : Attempt) :
  reaches_finalize ev = true ->
  didPushResults a = false ->
  exists r,
    snd (probe_event options n now ev a) = Some r /\
    didPushResults (fst (probe_event options n now ev a)) = true.
Proof.
  intros H G. destruct ev; try discriminate; simpl.
  - unfold probeResultCheck; simpl. rewrite G. simpl.
    rewrite request_exit_didPushResults. eauto.
  - unfold probeResultCheck; simpl. rewrite G. simpl.
    rewrite request_exit_didPushResults. eauto.
  - unfold onResponseTimer. rewrite G.
    unfold probeResultCheck; simpl. rewrite G. simpl.
    rewrite request_exit_didPushResults. eauto.
Qed.

Lemma run_finalized (options : Options) (n : nat)
    (evs : list (hrtime * Event)) (a : Attempt) :
  didPushResults a = true ->
  snd (run_attempt true options n evs a) = [] /\
  didPushResults (fst (run_attempt true options n evs a)) = true.
Proof.
  revert a. induction evs as [|[now ev] evs IH]; intros a H; simpl; auto.
  destruct (finalized_is_silent options n now ev a H) as [Hr Hg].
  destruct (probe_event options n now ev a) as [a' r]; simpl in *. subst r.
  destruct (IH a' Hg) as [Hs Hd].
  destruct (run_attempt true options n evs a') as [a'' rs]; simpl in *.
  subst rs. auto.
Qed.

Lemma run_without_finalize (options : Options) (n : nat)
    (evs : list (hrtime * Event)) (a : Attempt) :
  forallb (fun e => negb (reaches_finalize (snd e))) evs = true ->
  snd (run_attempt true options n evs a) = [] /\
  didPushResults (fst (run_attempt true options n evs a)) = didPushResults a.
Proof.
  revert a. induction evs as [|[now ev] evs IH]; intros a H; simpl; auto.
  simpl in H. apply andb_true_iff in H as [Hev Hevs].
  apply negb_true_iff in Hev.
  destruct (other_events_keep_guard options n now ev a Hev) as [Hr Hg].
  destruct (probe_event options n now ev a) as [a' r]; simpl in *. subst r.
  destruct (IH a' Hevs) as [Hs Hd].
  destruct (run_attempt true options n evs a') as [a'' rs]; simpl in *.
  subst rs. split; [reflexivity | congruence].
Qed.

(** C1: in probe mode, for every sequence of events of an attempt, the first
    event that reaches [probeResultCheck] (close, idle timeout or response
    timer; a match, an overflow and a socket error get there through the
    close they cause) records the attempt's result; nothing is pushed before
    it, and no event after it, in any order and for any [i], pushes
    anything. *)
Theorem C1_finalize_exactly_once (options : Options) (n : nat)
    (pre post : list (hrtime * Event)) (now : hrtime) (ev : Event) :
  forallb (fun e => negb (reaches_finalize (snd e))) pre = true ->
  reaches_finalize ev = true ->
  let a0 := new_attempt true options in
  let a1 := fst (run_attempt true options n pre a0) in
  let a2 := fst (handle true options n now ev a1) in
  exists r,
    snd (run_attempt true options n pre a0) = [] /\
    snd (handle true options n now ev a1) = Some r /\
    snd (run_attempt true options n (pre ++ (now, ev) :: post) a0) = [r] /\
    forall n' later, snd (run_attempt true options n' later a2) = [].
Proof.
  intros Hpre Hev a0 a1 a2.
  destruct (run_without_finalize options n pre a0 Hpre) as [Hnil Hguard].
  fold a1 in Hguard. change (didPushResults a0) with false in Hguard.
  destruct (first_finalize_pushes options n now ev a1 Hev Hguard)
    as (r & Hr & Hset).
  exists r. split; [exact Hnil|]. split; [exact Hr|]. split.
  - rewrite run_attempt_app. cbn [snd fst]. rewrite Hnil. fold a1.
    cbn [run_attempt app]. unfold handle in *.
    destruct (probe_event options n now ev a1) as [a' r'] eqn:E.
    cbn [snd fst] in *. subst r'.
    destruct (run_finalized options n post a' Hset) as [Hs _].
    destruct (run_attempt true options n post a') as [a'' rs].
    cbn [snd] in *. subst rs. reflexivity.
  - intros n' later. apply run_finalized. exact Hset.
Qed.

Lemma C1_finalize_exactly_once_witness :
  let options := merge_defaults (ping_pong 4 1) in
  let pre := [(ms 1, EvConnect);
              (ms 2, EvData (list_byte_of_string "PONG"));
              (ms 3, EvFinish)] in
  let post := [(ms 5, EvTimeout); (ms 6, EvResponseTimer); (ms 7, EvClose)] in
  exists r,
    snd (run_attempt true options 0 pre (new_attempt true options)) = [] /\
    snd (handle true options 0 (ms 4) EvClose
           (fst (run_attempt true options 0 pre (new_attempt true options))))
    = Some r /\
    snd (run_attempt true options 0 (pre ++ (ms 4, EvClose) :: post)
           (new_attempt true options)) = [r] /\
    forall n' later,
      snd (run_attempt true options n' later
             (fst (handle true options 0 (ms 4) EvClose
                     (fst (run_attempt true options 0 pre
                             (new_attempt true options)))))) = [].
Proof.
  intros options pre post.
  apply (C1_finalize_exactly_once options 0 pre post (ms 4) EvClose);
    reflexivity.
Defined.

(** * What [probeResultCheck] records *)

Lemma probeResultCheck_first (options : Options) (n : nat) (now : hrtime)
    (result : TriggerFields) (a : Attempt) :
  didPushResults a = false ->
  snd (probeResultCheck options n now result a)
  = Some (recorded options n now result a).
Proof.
  intros G. unfold probeResultCheck, recorded. cbn. rewrite G. cbn.
  unfold request_exit.
  destruct (exitRequest options) as [x|]; [|reflexivity].
  cbn. destruct (didRequestExit a); reflexivity.
Qed.

(** The result an event records when it is the first to reach
    [probeResultCheck]. *)
Lemma first_finalize_records (options : Options) (n : nat) (now : hrtime)
    (ev : Event) (a : Attempt) :
  reaches_finalize ev = true ->
  didPushResults a = false ->
  snd (probe_event options n now ev a)
  = Some (match ev with
          | EvResponseTimer =>
              recorded options n now (Some ResponseTimeout)
                (latch_lastErr ResponseTimeout a)
          | _ => recorded options n now None a
          end).
Proof.
  intros H G. destruct ev; try discriminate; cbn [probe_event].
  - apply probeResultCheck_first; exact G.
  - apply probeResultCheck_first; exact G.
  - unfold onResponseTimer. rewrite G.
    apply probeResultCheck_first; exact G.
Qed.

(** A sequence of events without a finalize trigger followed by one: the
    single result pushed is the one recorded from the state the sequence
    leads to. *)
Lemma run_then_finalize (options : Options) (n : nat)
    (pre : list (hrtime * Event)) (now : hrtime) (ev : Event) (a : Attempt) :
  forallb (fun e => negb (reaches_finalize (snd e))) pre = true ->
  reaches_finalize ev = true ->
  didPushResults a = false ->
  snd (run_attempt true options n (pre ++ [(now, ev)]) a)
  = [match ev with
     | EvResponseTimer =>
         recorded options n now (Some ResponseTimeout)
           (latch_lastErr ResponseTimeout
              (fst (run_attempt true options n pre a)))
     | _ => recorded options n now None
              (fst (run_attempt true options n pre a))
     end].
Proof.
  intros Hpre Hev G.
  destruct (run_without_finalize options n pre a Hpre) as [Hnil Hguard].
  rewrite G in Hguard.
  rewrite run_attempt_app. cbn [snd fst]. rewrite Hnil.
  cbn [run_attempt app handle].
  pose proof (first_finalize_records options n now ev _ Hev Hguard) as Hr.
  destruct (probe_event options n now ev
              (fst (run_attempt true options n pre a))) as [a' r].
  cbn [snd] in *. subst r. reflexivity.
Qed.

(** * An attempt whose connect never completes *)

Lemma run_before_connect (options : Options) (n : nat)
    (evs : list (hrtime * Event)) (a : Attempt) :
  before_connect evs = true ->
  connectTime a = None -> responseBuffer a = None -> didMatch a = false ->
  let a' := fst (run_attempt true options n evs a) in
  connectTime a' = None /\ responseBuffer a' = None /\ didMatch a' = false /\
  lastErr a' = match lastErr a with
               | Some e => Some e
               | None => first_error evs
               end.
Proof.
  revert a. induction evs as [|[now ev] evs IH]; intros a H Hc Hb Hm; simpl.
  - destruct (lastErr a); auto.
  - simpl in H. apply andb_true_iff in H as [Hev Hevs].
    apply andb_true_iff in Hev as [Hfin Hcon].
    assert (Hstep : let a1 := fst (probe_event options n now ev a) in
              connectTime a1 = None /\ responseBuffer a1 = None /\
              didMatch a1 = false /\
              lastErr a1 = match lastErr a with
                           | Some e => Some e
                           | None => match ev with
                                     | EvError e => Some e
                                     | _ => None
                                     end
                           end).
    { destruct ev; try discriminate; simpl.
      - unfold onData. rewrite Hb. destruct (lastErr a); auto.
      - destruct (lastErr a); auto.
      - destruct (lastErr a); auto. }
    destruct (probe_event options n now ev a) as [a1 r]; simpl in Hstep.
    destruct Hstep as (Hc1 & Hb1 & Hm1 & He1).
    specialize (IH a1 Hevs Hc1 Hb1 Hm1).
    destruct (run_attempt true options n evs a1) as [a2 rs]; simpl in *.
    destruct IH as (? & ? & ? & He2).
    repeat split; try assumption.
    rewrite He2, He1.
    destruct (lastErr a); [reflexivity|].
    destruct ev; try reflexivity; discriminate.
Qed.

Lemma before_connect_no_finalize (evs : list (hrtime * Event)) :
  before_connect evs = true ->
  forallb (fun e => negb (reaches_finalize (snd e))) evs = true.
Proof.
  unfold before_connect. rewrite !forallb_forall. intros H x Hx.
  specialize (H x Hx). apply andb_true_iff in H. tauto.
Qed.

(** C4, as amended: when no connect event precedes the finalize trigger, the
    recorded result has [conTime], [time], [bytes] and [data] undefined; its
    [match] field is present and [false] whenever [match] is configured (and
    missing otherwise); its [err] is [Response timeout] when the response
    timer finalizes, and otherwise the first socket error that occurred. *)
Theorem C4_never_connected (options : Options) (n : nat)
    (pre : list (hrtime * Event)) (now : hrtime) (ev : Event) :
  before_connect pre = true ->
  reaches_finalize ev = true ->
  exists r,
    snd (run_attempt true options n (pre ++ [(now, ev)])
           (new_attempt true options)) = [r] /\
    seq r = n /\ conTime r = None /\ time r = None /\
    bytes r = None /\ data r = None /\
    rmatch r = (if truthy_matcher (match_ options) then Some false else None) /\
    match ev with
    | EvResponseTimer => err r = Some ResponseTimeout
    | EvClose => err r = first_error pre
    | _ => forall e, first_error pre = Some e -> err r = Some e
    end.
Proof.
  intros Hpre Hev.
  pose proof (before_connect_no_finalize pre Hpre) as Hnf.
  destruct (run_before_connect options n pre (new_attempt true options) Hpre
              eq_refl eq_refl eq_refl) as (Hc & Hb & Hm & He).
  simpl in He.
  rewrite (run_then_finalize options n pre now ev (new_attempt true options)
             Hnf Hev eq_refl).
  eexists. split; [reflexivity|].
  destruct ev; try discriminate; unfold recorded; cbn;
    rewrite ?Hc, ?Hb, ?Hm, ?He; destruct (capture options); auto 10.
Qed.

Lemma C4_never_connected_witness :
  let options := merge_defaults (ping_pong 50000 1) in
  let pre := [(ms 3, EvError (TransportError "ECONNREFUSED"))] in
  exists r,
    snd (run_attempt true options 0 (pre ++ [(ms 3, EvClose)])
           (new_attempt true options)) = [r] /\
    seq r = 0%nat /\ conTime r = None /\ time r = None /\
    bytes r = None /\ data r = None /\
    rmatch r = (if truthy_matcher (match_ options) then Some false else None) /\
    err r = first_error pre.
Proof.
  intros options pre.
  apply (C4_never_connected options 0 pre (ms 3) EvClose); reflexivity.
Defined.

(** C4, as stated, fails: with [match: 'PONG'] configured and a connect that
    is refused, the recorded result has [match: false], not a missing
    [match]. *)
Lemma C4_match_present_without_connect :
  let options := merge_defaults (ping_pong 50000 1) in
  truthy_matcher (match_ options) = true /\
  snd (run_attempt true options 0
         [(ms 3, EvError (TransportError "ECONNREFUSED")); (ms 3, EvClose)]
         (new_attempt true options))
  = [{| seq := 0; conTime := None; time := None; rmatch := Some false;
        err := Some (TransportError "ECONNREFUSED");
        bytes := None; data := None |}].
Proof.
  split; vm_compute; reflexivity.
Qed.

(** * The response buffer and its cap *)

Lemma Buffer_slice0_nonneg (b : Buffer) (n : Z) :
  0 <= n -> Buffer_slice0 b n = firstn (Z.to_nat n) b.
Proof.
  intros Hn. unfold Buffer_slice0, Buffer_length.
  destruct (Z.ltb_spec n 0) as [|_]; [lia|].
  destruct (Z.le_ge_cases n (Z.of_nat (length b))) as [Hle|Hge].
  - rewrite Z.min_l by lia. reflexivity.
  - rewrite Z.min_r by lia. rewrite Nat2Z.id.
    rewrite !firstn_all2 by lia. reflexivity.
Qed.

(** With a cap that is not negative and a buffer within the cap, the length
    test of [onData] keeps the first [maxResponseBytes] bytes of everything
    received, and sets the exceeded flag exactly when the chunk does not
    fit. *)
Lemma truncate_to_cap_within (options : Options) (a : Attempt) (buf : Buffer) :
  responseBuffer a = Some buf ->
  Buffer_length buf <= maxResponseBytes options ->
  truncate_to_cap options a = a.
Proof.
  intros Ha Hbuf. unfold truncate_to_cap. rewrite Ha. cbn.
  rewrite Z.gtb_ltb.
  destruct (Z.ltb_spec (maxResponseBytes options) (Buffer_length buf));
    [lia | reflexivity].
Qed.

(** With a cap that is not negative and a buffer within the cap, the length
    test of [onData] keeps the first [maxResponseBytes] bytes of everything
    received, and sets the exceeded flag exactly when the chunk does not
    fit. *)
Lemma append_chunk_spec (options : Options) (buf d : Buffer) (a : Attempt) :
  0 <= maxResponseBytes options ->
  responseBuffer a = Some buf ->
  Buffer_length buf <= maxResponseBytes options ->
  let a' := append_chunk options buf d a in
  responseBuffer a'
  = Some (firstn (Z.to_nat (maxResponseBytes options)) (buf ++ d)) /\
  didExceedResponseBytes a'
  = didExceedResponseBytes a
    || (Buffer_length buf + Buffer_length d >? maxResponseBytes options) /\
  lastErr a' = lastErr a /\ connectTime a' = connectTime a /\
  didMatch a' = didMatch a.
Proof.
  intros Hmax Ha Hbuf. unfold append_chunk, Buffer_length in *.
  set (max := maxResponseBytes options) in *.
  rewrite !Z.gtb_ltb, !Z.geb_leb.
  destruct (Z.leb_spec (Z.of_nat (length buf) + Z.of_nat (length d)) max)
    as [Hfit|Hover].
  - (* the chunk fits *)
    destruct (Z.ltb_spec max (Z.of_nat (length buf) + Z.of_nat (length d)));
      [lia|].
    cbn. rewrite firstn_all2 by (rewrite length_app; lia).
    rewrite orb_false_r. auto.
  - destruct (Z.ltb_spec max (Z.of_nat (length buf) + Z.of_nat (length d)))
      as [_|]; [|lia].
    rewrite orb_true_r.
    destruct (Z.leb_spec max (Z.of_nat (length buf))) as [Hfull|Hroom];
      destruct (Z.ltb_spec 0 (Z.of_nat (length d))) as [Hd|Hd];
      try lia; cbn.
    + (* the buffer is full already *)
      rewrite Ha, firstn_app.
      replace (Z.to_nat max - length buf)%nat with 0%nat by lia.
      rewrite firstn_all2 by lia. cbn. rewrite app_nil_r. auto.
    + (* part of the chunk fits *)
      rewrite Buffer_slice0_nonneg by lia.
      rewrite firstn_app, (firstn_all2 buf) by lia.
      replace (Z.to_nat (max - Z.of_nat (length buf)))
        with (Z.to_nat max - length buf)%nat by lia.
      auto.
Qed.

Lemma firstn_within_cap (max : Z) (l : Buffer) :
  0 <= max -> Buffer_length (firstn (Z.to_nat max) l) <= max.
Proof.
  intros H. unfold Buffer_length. rewrite length_firstn. lia.
Qed.

Lemma append_capped_spec (options : Options) (buf d : Buffer) (a : Attempt) :
  0 <= maxResponseBytes options ->
  responseBuffer a = Some buf ->
  Buffer_length buf <= maxResponseBytes options ->
  let a' := append_capped options buf d a in
  responseBuffer a'
  = Some (firstn (Z.to_nat (maxResponseBytes options)) (buf ++ d)) /\
  didExceedResponseBytes a'
  = didExceedResponseBytes a
    || (Buffer_length buf + Buffer_length d >? maxResponseBytes options) /\
  lastErr a' = lastErr a /\ connectTime a' = connectTime a /\
  didMatch a' = didMatch a.
Proof.
  intros Hmax Ha Hbuf.
  destruct (append_chunk_spec options buf d a Hmax Ha Hbuf) as (Hb & Hrest).
  unfold append_capped.
  rewrite (truncate_to_cap_within options _ _ Hb)
    by (apply firstn_within_cap; exact Hmax).
  split; [exact Hb | exact Hrest].
Qed.

Lemma request_exit_fields (options : Options) (a : Attempt) :
  responseBuffer (request_exit options a) = responseBuffer a /\
  lastErr (request_exit options a) = lastErr a /\
  connectTime (request_exit options a) = connectTime a /\
  didMatch (request_exit options a) = didMatch a /\
  didExceedResponseBytes (request_exit options a) = didExceedResponseBytes a.
Proof.
  unfold request_exit. destruct (exitRequest options); [|auto].
  destruct (didRequestExit a); auto.
Qed.

Lemma check_match_fields (options : Options) (a : Attempt) :
  responseBuffer (check_match options a) = responseBuffer a /\
  lastErr (check_match options a) = lastErr a /\
  connectTime (check_match options a) = connectTime a /\
  didExceedResponseBytes (check_match options a) = didExceedResponseBytes a.
Proof.
  unfold check_match. destruct (match_ options) as [m|]; [|auto].
  destruct (truthy_matcher (Some m) && _); [|auto].
  cbn. destruct (request_exit_fields options (set_didMatch a))
    as (-> & -> & -> & _ & ->). auto.
Qed.

Lemma check_exceeded_fields (options : Options) (a : Attempt) :
  responseBuffer (check_exceeded options a) = responseBuffer a /\
  connectTime (check_exceeded options a) = connectTime a /\
  didExceedResponseBytes (check_exceeded options a) = didExceedResponseBytes a /\
  lastErr (check_exceeded options a)
  = if didExceedResponseBytes a
    then match lastErr a with
         | Some e => Some e
         | None => Some MaxResponseBytesExceeded
         end
    else lastErr a.
Proof.
  unfold check_exceeded. destruct (didExceedResponseBytes a) eqn:E; [|auto].
  cbn. destruct (request_exit_fields options
                   (latch_lastErr MaxResponseBytesExceeded a))
    as (-> & -> & -> & _ & ->). auto.
Qed.

Lemma probeResultCheck_responseBuffer (options : Options) (n : nat)
    (now : hrtime) (result : TriggerFields) (a : Attempt) :
  responseBuffer (fst (probeResultCheck options n now result a))
  = responseBuffer a.
Proof.
  unfold probeResultCheck. cbn. destruct (didPushResults a); cbn; [reflexivity|].
  destruct (request_exit_fields options (set_didPushResults (clearTimeout a)))
    as (-> & _). reflexivity.
Qed.

Lemma probe_event_within_cap (options : Options) (n : nat) (now : hrtime)
    (ev : Event) (a : Attempt) :
  0 <= maxResponseBytes options ->
  within_cap options a ->
  within_cap options (fst (probe_event options n now ev a)).
Proof.
  intros Hmax Ha. unfold within_cap in *. destruct ev; cbn [probe_event fst].
  - cbn. intros b [= <-]. exact Hmax.
  - unfold onData. destruct (responseBuffer a) as [buf|] eqn:Eb;
      [|rewrite Eb; exact Ha].
    destruct (didPushResults a); [rewrite Eb; exact Ha|].
    destruct (check_exceeded_fields options
                (check_match options (append_capped options buf d a)))
      as (-> & _).
    destruct (check_match_fields options (append_capped options buf d a))
      as (-> & _).
    destruct (append_capped_spec options buf d a Hmax Eb (Ha buf eq_refl))
      as (-> & _).
    intros b [= <-]. apply firstn_within_cap; exact Hmax.
  - exact Ha.
  - exact Ha.
  - rewrite probeResultCheck_responseBuffer. exact Ha.
  - rewrite probeResultCheck_responseBuffer. exact Ha.
  - unfold onResponseTimer. destruct (didPushResults a); [exact Ha|].
    rewrite probeResultCheck_responseBuffer. exact Ha.
Qed.

Lemma recorded_within_cap (options : Options) (n : nat) (now : hrtime)
    (result : TriggerFields) (a : Attempt) :
  within_cap options a ->
  result_within_cap options (recorded options n now result a).
Proof.
  intros Ha. unfold result_within_cap, recorded; cbn. split.
  - intros k Hk. destruct (responseBuffer a) as [b|] eqn:Eb; [|discriminate].
    cbn in Hk. injection Hk as <-. exact (Ha b Eb).
  - intros d Hd. destruct (capture options); [|discriminate].
    exact (Ha d Hd).
Qed.

Lemma pushed_within_cap (options : Options) (n : nat) (now : hrtime)
    (ev : Event) (a : Attempt) (r : Result) :
  within_cap options a ->
  snd (probe_event options n now ev a) = Some r ->
  result_within_cap options r.
Proof.
  intros Ha Hr.
  destruct (didPushResults a) eqn:G.
  - destruct (finalized_is_silent options n now ev a G) as [Hnone _].
    congruence.
  - destruct (reaches_finalize ev) eqn:Hev.
    + rewrite (first_finalize_records options n now ev a Hev G) in Hr.
      injection Hr as <-.
      destruct ev; try discriminate; apply recorded_within_cap; exact Ha.
    + destruct (other_events_keep_guard options n now ev a Hev) as [Hnone _].
      congruence.
Qed.

Lemma run_within_cap (options : Options) (n : nat)
    (evs : list (hrtime * Event)) (a : Attempt) (r : Result) :
  0 <= maxResponseBytes options ->
  within_cap options a ->
  In r (snd (run_attempt true options n evs a)) ->
  result_within_cap options r.
Proof.
  intros Hmax. revert a.
  induction evs as [|[now ev] evs IH]; intros a Ha Hin; cbn in Hin.
  - destruct Hin.
  - pose proof (probe_event_within_cap options n now ev a Hmax Ha) as Ha'.
    pose proof (pushed_within_cap options n now ev a) as Hp.
    destruct (probe_event options n now ev a) as [a' o]. cbn [fst snd] in *.
    specialize (IH a' Ha').
    destruct (run_attempt true options n evs a') as [a'' rs].
    cbn [snd] in *. apply in_app_or in Hin as [Hin|Hin].
    + destruct o as [r0|]; cbn in Hin; [|destruct Hin].
      destruct Hin as [<-|[]]. apply (Hp r0 Ha eq_refl).
    + exact (IH Hin).
Qed.

(** C5: in probe mode, with a [maxResponseBytes] that is not negative, for
    every sequence of events of an attempt (chunks of any sizes, in any
    interleaving with the other events), a recorded result has [bytes], and
    the length of [data] when captured, at most [maxResponseBytes]. *)
Theorem C5_bytes_within_cap (options : Options) (n : nat)
    (evs : list (hrtime * Event)) (r : Result) :
  0 <= maxResponseBytes options ->
  In r (snd (run_attempt true options n evs (new_attempt true options))) ->
  (forall k, bytes r = Some k -> Z.of_nat k <= maxResponseBytes options) /\
  (forall d, data r = Some d -> Buffer_length d <= maxResponseBytes options).
Proof.
  intros Hmax Hin.
  apply (run_within_cap options n evs (new_attempt true options) r Hmax);
    [|exact Hin].
  intros b Hb. discriminate Hb.
Qed.

Lemma C5_bytes_within_cap_witness :
  let options := merge_defaults (ping_pong 3 1) in
  let evs := [(ms 1, EvConnect);
              (ms 2, EvData (list_byte_of_string "PO"));
              (ms 3, EvData (list_byte_of_string "NG"));
              (ms 4, EvFinish); (ms 5, EvClose)] in
  let r := {| seq := 0; conTime := Some (to_ms (ms 1));
              time := Some (to_ms (ms 5)); rmatch := Some false;
              err := Some MaxResponseBytesExceeded; bytes := Some 3%nat;
              data := Some (list_byte_of_string "PON") |} in
  (forall k, bytes r = Some k -> Z.of_nat k <= maxResponseBytes options) /\
  (forall d, data r = Some d -> Buffer_length d <= maxResponseBytes options).
Proof.
  intros options evs r.
  apply (C5_bytes_within_cap options 0 evs r).
  - vm_compute. discriminate.
  - vm_compute. left. reflexivity.
Defined.

(** * Overflow of the response buffer *)

Lemma firstn_firstn_app (k : nat) (l r : Buffer) :
  firstn k (firstn k l ++ r) = firstn k (l ++ r).
Proof.
  destruct (Nat.le_gt_cases k (length l)) as [Hle|Hgt].
  - rewrite !firstn_app, firstn_firstn, Nat.min_id, length_firstn.
    replace (k - Nat.min k (length l))%nat with 0%nat by lia.
    replace (k - length l)%nat with 0%nat by lia. reflexivity.
  - rewrite (firstn_all2 l) by lia. reflexivity.
Qed.

Lemma run_attempt_fst_cons (probeMode : bool) (options : Options) (n : nat)
    (now : hrtime) (ev : Event) (evs : list (hrtime * Event)) (a : Attempt) :
  fst (run_attempt probeMode options n ((now, ev) :: evs) a)
  = fst (run_attempt probeMode options n evs
           (fst (handle probeMode options n now ev a))).
Proof.
  cbn [run_attempt].
  destruct (handle probeMode options n now ev a) as [a1 r]. cbn [fst].
  destruct (run_attempt probeMode options n evs a1). reflexivity.
Qed.

(** One chunk on a connected attempt that has not finalized. *)
Lemma onData_spec (options : Options) (d : Buffer) (a : Attempt) (buf : Buffer) :
  0 <= maxResponseBytes options ->
  responseBuffer a = Some buf ->
  Buffer_length buf <= maxResponseBytes options ->
  didPushResults a = false ->
  responseBuffer (onData options d a)
  = Some (firstn (Z.to_nat (maxResponseBytes options)) (buf ++ d)) /\
  didExceedResponseBytes (onData options d a)
  = didExceedResponseBytes a
    || (Buffer_length buf + Buffer_length d >? maxResponseBytes options) /\
  lastErr (onData options d a)
  = (if didExceedResponseBytes (onData options d a)
     then match lastErr a with
          | Some e => Some e
          | None => Some MaxResponseBytesExceeded
          end
     else lastErr a) /\
  connectTime (onData options d a) = connectTime a /\
  didPushResults (onData options d a) = false.
Proof.
  intros Hmax Hb Hlen G.
  rewrite onData_didPushResults.
  unfold onData. rewrite Hb, G.
  destruct (append_capped_spec options buf d a Hmax Hb Hlen)
    as (Hb1 & Hx1 & He1 & Hc1 & _).
  destruct (check_match_fields options (append_capped options buf d a))
    as (Hb2 & He2 & Hc2 & Hx2).
  destruct (check_exceeded_fields options
              (check_match options (append_capped options buf d a)))
    as (Hb3 & Hc3 & Hx3 & He3).
  rewrite Hb3, Hb2, Hb1, Hx3, Hx2, Hx1, He3, Hx2, Hx1, He2, He1, Hc3, Hc2, Hc1.
  auto.
Qed.

(** C6, as stated, fails: three bytes arrive with [maxResponseBytes: 2] and
    the response timer fires before the close; the recorded [err] is
    [Response timeout], not [Max Response Bytes Exceeded]. *)
Lemma C6_response_timer_overrides_overflow :
  let options := merge_defaults (ping_pong 2 1) in
  overflows options (list_byte_of_string "PON") = true /\
  snd (run_attempt true options 0
         (three_bytes_cap_two ++ [(ms 5000, EvResponseTimer); (ms 5001, EvClose)])
         (new_attempt true options))
  = [{| seq := 0; conTime := Some (to_ms (ms 1));
        time := Some (to_ms (ms 5000)); rmatch := Some false;
        err := Some ResponseTimeout; bytes := Some 2%nat;
        data := Some (list_byte_of_string "PO") |}].
Proof.
  split; vm_compute; reflexivity.
Qed.

(** * The sequencer: one result per attempt *)

Lemma handle_spent (probeMode : bool) (options : Options) (n : nat)
    (now : hrtime) (ev : Event) (a : Attempt) :
  spent probeMode a ->
  emits a ev = true ->
  snd (handle probeMode options n now ev a) = None /\
  spent probeMode (fst (handle probeMode options n now ev a)).
Proof.
  unfold spent, handle. destruct probeMode; intros Hs He.
  - apply finalized_is_silent; exact Hs.
  - destruct ev; cbn in *; rewrite ?Hs in He; try discriminate; auto.
Qed.

Lemma handle_live (probeMode : bool) (options : Options) (n : nat)
    (now : hrtime) (ev : Event) (a : Attempt) :
  live probeMode a ->
  (snd (handle probeMode options n now ev a) = None /\
   live probeMode (fst (handle probeMode options n now ev a))) \/
  (exists r, snd (handle probeMode options n now ev a) = Some r /\
             seq r = n /\
             spent probeMode (fst (handle probeMode options n now ev a))).
Proof.
  unfold live, spent, handle. destruct probeMode; intros Hl.
  - destruct (reaches_finalize ev) eqn:Hev.
    + right.
      destruct (first_finalize_pushes options n now ev a Hev Hl)
        as (r & Hr & Hg).
      exists r. repeat split; try assumption.
      rewrite (first_finalize_records options n now ev a Hev Hl) in Hr.
      injection Hr as <-. destruct ev; reflexivity.
    + left. destruct (other_events_keep_guard options n now ev a Hev)
        as [Hr Hg]. split; [exact Hr | congruence].
  - destruct ev; cbn; auto; right; eexists; repeat split; reflexivity.
Qed.

Lemma handle_closing (probeMode : bool) (options : Options) (n : nat)
    (now : hrtime) (a : Attempt) :
  live probeMode a ->
  emits a (closing probeMode) = true /\
  exists r, snd (handle probeMode options n now (closing probeMode) a) = Some r.
Proof.
  unfold live, handle, closing. destruct probeMode; intros Hl.
  - split; [reflexivity|].
    destruct (first_finalize_pushes options n now EvClose a eq_refl Hl)
      as (r & Hr & _).
    exists r. exact Hr.
  - cbn. rewrite Hl. split; [reflexivity | eexists; reflexivity].
Qed.

Lemma aggregate_nonempty (probeMode : bool) (options : Options)
    (rs : list Result) :
  rs <> [] ->
  exists out, aggregate probeMode options rs = inr out /\
              Report.results out = rs.
Proof.
  intros H. destruct rs as [|r rs]; [contradiction|].
  unfold aggregate. eexists. split; reflexivity.
Qed.

(** [results[0]] of an empty [results] is [undefined]; reading its [time]
    throws. *)
Lemma aggregate_empty (probeMode : bool) (options : Options) :
  aggregate probeMode options [] = inl TypeError.
Proof. reflexivity. Qed.

Lemma sequenced_start (options : RawOptions) :
  sequenced (isProbe options) (merge_defaults options)
    (connect (isProbe options) (merge_defaults options)
       {| i := 0%nat; results := []; sockets := []; reports := [];
          thrown := None |}).
Proof.
  split; cbn; auto.
  - intros k r Hk. rewrite lookup_nil in Hk. discriminate.
  - intros k a Hk. lia.
  - left. unfold attempts_made. split; [lia|]. repeat split.
    eexists. split; [reflexivity|].
    unfold live. destruct (isProbe options); reflexivity.
Qed.

(** A handler that pushes nothing: only the attempt's own closure changes. *)
Lemma sequenced_update (probeMode : bool) (options : Options) (w : World)
    (k : nat) (a' : Attempt) :
  sequenced probeMode options w ->
  (k < length (sockets w))%nat ->
  ((k < i w)%nat -> spent probeMode a') ->
  (k = i w -> live probeMode a') ->
  sequenced probeMode options
    {| i := i w; results := results w; sockets := <[k := a']> (sockets w);
       reports := reports w; thrown := None |}.
Proof.
  intros [Ht Hl Ho Hs Hp] Hk Hspent Hlive. split; cbn; auto.
  - intros k' a0 Hk' Ha0.
    destruct (decide (k = k')) as [<-|Hne].
    + rewrite list_lookup_insert_eq in Ha0 by exact Hk.
      injection Ha0 as <-. auto.
    + rewrite list_lookup_insert_ne in Ha0 by exact Hne. eauto.
  - rewrite length_insert.
    destruct Hp as [(Hi & Hr & Hlen & a & Ha & Hla)|(Hi & Hlen & Hout)];
      [left | right; auto].
    repeat split; auto.
    destruct (decide (k = i w)) as [->|Hne].
    + exists a'. rewrite list_lookup_insert_eq by lia. auto.
    + exists a. rewrite list_lookup_insert_ne by exact Hne. auto.
Qed.

(** The current attempt pushes its result: [i++; check(...)] either starts
    the next attempt or hands the report to the callback. *)
Lemma sequenced_push (probeMode : bool) (options : Options) (w : World)
    (a' : Attempt) (r : Result) :
  sequenced probeMode options w ->
  (i w < attempts_made options)%nat ->
  seq r = i w ->
  spent probeMode a' ->
  let w' := push_and_check probeMode options r
              {| i := i w; results := results w;
                 sockets := <[i w := a']> (sockets w);
                 reports := reports w; thrown := None |} in
  sequenced probeMode options w' /\ i w' = S (i w).
Proof.
  intros [Ht Hl Ho Hs Hp] Hrun Hseq Hspent.
  destruct Hp as [(_ & Hr & Hlen & a & Ha & Hla)|(Hi & _)]; [|lia].
  assert (Horder : forall k r0, (results w ++ [r]) !! k = Some r0 -> seq r0 = k).
  { intros k r0 Hk. destruct (decide (k < length (results w))%nat) as [Hlt|Hge].
    - rewrite lookup_app_l in Hk by exact Hlt. eauto.
    - rewrite lookup_app_r in Hk by lia.
      destruct (k - length (results w))%nat as [|j] eqn:Ej; cbn in Hk;
        [|destruct j; discriminate].
      injection Hk as <-. lia. }
  assert (Hold : forall k a0, (k < S (i w))%nat ->
            <[i w := a']> (sockets w) !! k = Some a0 -> spent probeMode a0).
  { intros k a0 Hk Ha0. destruct (decide (i w = k)) as [<-|Hne].
    - rewrite list_lookup_insert_eq in Ha0 by lia. injection Ha0 as <-. auto.
    - rewrite list_lookup_insert_ne in Ha0 by exact Hne.
      apply (Hs k a0); [lia | exact Ha0]. }
  cbn zeta. unfold push_and_check, check. cbn [i results sockets reports thrown].
  destruct (Z.ltb_spec (Z.of_nat (S (i w))) (attempts options)) as [Hmore|Hdone].
  - (* connect: the next attempt *)
    split; [|reflexivity]. split; cbn; auto.
    + rewrite length_app. cbn. lia.
    + intros k a0 Hk Ha0.
      rewrite lookup_app_l in Ha0 by (rewrite length_insert; lia). eauto.
    + left. unfold attempts_made in *. split; [lia|]. split; [exact Hr|].
      rewrite length_app, length_insert. cbn. split; [lia|].
      exists (new_attempt probeMode options). split.
      * rewrite lookup_app_r by (rewrite length_insert; lia).
        rewrite length_insert, Hlen, Nat.sub_diag. reflexivity.
      * unfold live. destruct probeMode; reflexivity.
  - (* the report *)
    destruct (aggregate_nonempty probeMode options (results w ++ [r]))
      as (out & Hagg & Hres).
    { intros Hnil. apply (f_equal length) in Hnil.
      rewrite length_app in Hnil. cbn in Hnil. lia. }
    rewrite Hagg. split; [|reflexivity]. split; cbn; auto.
    + rewrite length_app. cbn. lia.
    + right. unfold attempts_made in *. split; [lia|].
      rewrite length_insert. split; [lia|].
      exists out. rewrite Hr. auto.
Qed.

(** Every delivery keeps the sequencer's invariant and never moves [i]
    back. *)
Lemma deliver_sequenced (probeMode : bool) (options : Options) (w : World)
    (e : nat * hrtime * Event) :
  sequenced probeMode options w ->
  sequenced probeMode options (deliver probeMode options w e) /\
  (i w <= i (deliver probeMode options w e))%nat.
Proof.
  intros Hw. destruct e as [[k now] ev]. unfold deliver.
  rewrite (seq_thrown _ _ _ Hw).
  destruct (sockets w !! k) as [a|] eqn:Ek; [|auto].
  destruct (emits a ev) eqn:Em; [|auto].
  pose proof (lookup_lt_Some _ _ _ Ek) as Hk.
  destruct (decide (k < i w)%nat) as [Hold|Hcur].
  - (* an attempt that has finalized *)
    pose proof (seq_spent _ _ _ Hw k a Hold Ek) as Hs.
    destruct (handle_spent probeMode options (i w) now ev a Hs Em) as [Hr Hs'].
    destruct (handle probeMode options (i w) now ev a) as [a' r].
    cbn [fst snd] in *. subst r. split; [|cbn; lia].
    apply sequenced_update; auto. lia.
  - destruct (seq_phase _ _ _ Hw)
      as [(Hi & Hr & Hlen & a0 & Ha0 & Hla)|(Hi & Hlen & Hout)]; [|lia].
    assert (k = i w) by lia. subst k.
    rewrite Ha0 in Ek. injection Ek as ->.
    destruct (handle_live probeMode options (i w) now ev a Hla)
      as [[Hr' Hl']|(r & Hr' & Hseq & Hs')];
      destruct (handle probeMode options (i w) now ev a) as [a' r'];
      cbn [fst snd] in *; subst r'.
    + split; [|cbn; lia]. apply sequenced_update; auto. lia.
    + destruct (sequenced_push probeMode options w a' r Hw Hi Hseq Hs')
        as [Hw' Hi'].
      split; [exact Hw' | rewrite Hi'; lia].
Qed.

(** A closing event for the current attempt finalizes it. *)
Lemma deliver_closing (probeMode : bool) (options : Options) (w : World)
    (now : hrtime) :
  sequenced probeMode options w ->
  (i w < attempts_made options)%nat ->
  i (deliver probeMode options w (i w, now, closing probeMode)) = S (i w).
Proof.
  intros Hw Hi. unfold deliver. rewrite (seq_thrown _ _ _ Hw).
  destruct (seq_phase _ _ _ Hw)
    as [(_ & Hr & Hlen & a & Ha & Hla)|(Hi' & _)]; [|lia].
  rewrite Ha.
  destruct (handle_closing probeMode options (i w) now a Hla)
    as (-> & r & Hr').
  destruct (handle_live probeMode options (i w) now (closing probeMode) a Hla)
    as [[Hnone _]|(r0 & Hr0 & Hseq & Hs')]; [congruence|].
  destruct (handle probeMode options (i w) now (closing probeMode) a)
    as [a' r'].
  cbn [fst snd] in *. subst r'. injection Hr0 as ->.
  apply (sequenced_push probeMode options w a' r0 Hw Hi Hseq Hs').
Qed.

Lemma run_sequenced (probeMode : bool) (options : Options)
    (schedule : list (nat * hrtime * Event)) (w : World) :
  sequenced probeMode options w ->
  sequenced probeMode options
    (fold_left (deliver probeMode options) schedule w) /\
  (i w <= i (fold_left (deliver probeMode options) schedule w))%nat.
Proof.
  revert w. induction schedule as [|e schedule IH]; intros w Hw; cbn.
  - auto.
  - destruct (deliver_sequenced probeMode options w e Hw) as [Hw' Hi].
    destruct (IH _ Hw') as [Hw'' Hi']. split; [exact Hw'' | lia].
Qed.

(** Closing events for attempts [j], [j+1], ... take [i] past each of them,
    until every attempt has been made. *)
Lemma run_settle (probeMode : bool) (options : Options) (now : hrtime)
    (m j : nat) (w : World) :
  sequenced probeMode options w ->
  (Nat.min j (attempts_made options) <= i w)%nat ->
  let w' := fold_left (deliver probeMode options)
              (map (fun k => (k, now, closing probeMode)) (List.seq j m)) w in
  sequenced probeMode options w' /\
  (Nat.min (j + m) (attempts_made options) <= i w')%nat.
Proof.
  revert j w. induction m as [|m IH]; intros j w Hw Hj; cbn zeta.
  - cbn. split; [exact Hw | rewrite Nat.add_0_r; exact Hj].
  - cbn [List.seq map fold_left].
    destruct (deliver_sequenced probeMode options w
                (j, now, closing probeMode) Hw) as [Hw1 Hmono].
    assert (Hj1 : (Nat.min (S j) (attempts_made options)
                   <= i (deliver probeMode options w
                           (j, now, closing probeMode)))%nat).
    { destruct (decide (Nat.min (S j) (attempts_made options) <= i w)%nat)
        as [Hle|Hgt]; [lia|].
      assert (j = i w) by lia. subst j.
      rewrite deliver_closing by (exact Hw || lia). lia. }
    destruct (IH (S j) _ Hw1 Hj1) as [Hw2 Hi2].
    split; [exact Hw2|]. rewrite <- Nat.add_succ_comm. exact Hi2.
Qed.

(** What the callback receives, whenever it is called. *)
Lemma sequenced_report (probeMode : bool) (options : Options) (w : World)
    (out : Report.t) :
  sequenced probeMode options w ->
  In out (reports w) ->
  reports w = [out] /\
  length (Report.results out) = attempts_made options /\
  forall k, (k < attempts_made options)%nat ->
            seq <$> (Report.results out !! k) = Some k.
Proof.
  intros [Ht Hl Ho Hs Hp] Hin.
  destruct Hp as [(_ & Hr & _)|(Hi & _ & out' & Hr & Hres)].
  - rewrite Hr in Hin. destruct Hin.
  - rewrite Hr in Hin. destruct Hin as [<-|[]].
    split; [exact Hr|]. rewrite Hres. split; [lia|].
    intros k Hk.
    destruct (lookup_lt_is_Some_2 (results w) k) as [r Hr']; [lia|].
    rewrite Hr'. cbn. f_equal. eauto.
Qed.

(** Once every attempt has received a closing event, the callback has been
    called. *)
Lemma settle_reports (probeMode : bool) (options : Options) (now : hrtime)
    (w : World) :
  sequenced probeMode options w ->
  exists out,
    reports (fold_left (deliver probeMode options)
               (settle probeMode now (attempts_made options)) w) = [out].
Proof.
  intros Hw. unfold settle.
  destruct (run_settle probeMode options now (attempts_made options) 0 w Hw)
    as [[Ht Hl Ho Hs Hp] Hi]; [lia|].
  destruct Hp as [(Hlt & _)|(_ & _ & out & Hr & _)].
  - cbn [Nat.add] in Hi. lia.
  - exists out. exact Hr.
Qed.

(** C2: for every caller configuration whose [attempts] is [n >= 1], in
    either mode and for every sequence of events the transport and the
    timers deliver, the aggregator does not throw, the callback is called at
    most once, and the report it receives has [results.length = n] with
    [results[k].seq = k] for every [k < n]; and once every attempt has
    received an event that finalizes it, the callback has been called. *)
Theorem C2_one_result_per_attempt (options : RawOptions)
    (schedule : list (nat * hrtime * Event)) (now : hrtime) (w0 : World) :
  1 <= attempts (merge_defaults options) ->
  probe options true = inr w0 ->
  let n := Z.to_nat (attempts (merge_defaults options)) in
  let w := run options schedule w0 in
  thrown w = None /\
  (forall out, In out (reports w) ->
     reports w = [out] /\
     length (Report.results out) = n /\
     forall k, (k < n)%nat -> seq <$> (Report.results out !! k) = Some k) /\
  exists out,
    reports (run options (schedule ++ settle (isProbe options) now n) w0)
    = [out].
Proof.
  intros Hn Hw0 n w. injection Hw0 as <-.
  assert (Hmade : attempts_made (merge_defaults options) = n)
    by (unfold attempts_made, n; lia).
  destruct (run_sequenced (isProbe options) (merge_defaults options) schedule
              _ (sequenced_start options)) as [Hw _].
  fold (run options schedule
          (connect (isProbe options) (merge_defaults options)
             {| i := 0%nat; results := []; sockets := []; reports := [];
                thrown := None |})) in Hw.
  fold w in Hw. split; [exact (seq_thrown _ _ _ Hw)|]. split.
  - intros out Hin. rewrite <- Hmade.
    exact (sequenced_report _ _ w out Hw Hin).
  - unfold run. rewrite fold_left_app. rewrite <- Hmade.
    apply settle_reports. exact Hw.
Qed.

Lemma C2_one_result_per_attempt_witness :
  let options := ping_pong 4 2 in
  exists w0,
    probe options true = inr w0 /\
    let w := run options refused_then_matched w0 in
    thrown w = None /\
    (forall out, In out (reports w) ->
       reports w = [out] /\
       length (Report.results out) = 2%nat /\
       forall k, (k < 2)%nat -> seq <$> (Report.results out !! k) = Some k) /\
    exists out,
      reports (run options
                 (refused_then_matched ++ settle (isProbe options) (ms 9) 2) w0)
      = [out].
Proof.
  intros options. eexists. split; [reflexivity|].
  apply (C2_one_result_per_attempt options refused_then_matched (ms 9)).
  - vm_compute. discriminate.
  - reflexivity.
Defined.

(** * [ping] and the merged options *)

(** [ping] differs from [probe] in the default of [attempts] only: the mode
    is the same, an [attempts] the caller gives is kept, 10 is used
    otherwise, and every other merged option is the one [probe] would
    use. *)
Theorem ping_changes_attempts_default_only (options : RawOptions) :
  let p := merge_defaults (ping_options options) in
  let q := merge_defaults options in
  isProbe (ping_options options) = isProbe options /\
  attempts p = default 10 (raw_attempts options) /\
  address p = address q /\ port p = port q /\ timeout p = timeout q /\
  encoding p = encoding q /\ request p = request q /\
  exitRequest p = exitRequest q /\ match_ p = match_ q /\
  maxResponseBytes p = maxResponseBytes q /\ capture p = capture q /\
  noDelay p = noDelay q /\ responseTimeout p = responseTimeout q.
Proof.
  cbn. repeat split; reflexivity.
Qed.

(** After the merge a [match] is never a string: a string the caller gave,
    the empty one included, has become a Buffer, so a [match] that is
    present always counts as configured; and [exitRequest] is configured
    exactly when the caller gave one, the empty string included. *)
Theorem merged_match_is_never_a_string (options : RawOptions) :
  let o := merge_defaults options in
  (forall str, match_ o <> Some (MString str)) /\
  (truthy_matcher (match_ o) = true <-> is_Some (raw_match options)) /\
  (is_Some (exitRequest o) <-> is_Some (raw_exitRequest options)).
Proof.
  cbn. repeat split.
  - intros str. destruct (raw_match options) as [[]|]; cbn; congruence.
  - destruct (raw_match options) as [[]|]; cbn; [eauto..|discriminate].
  - destruct (raw_match options) as [[]|]; cbn; intros H; try reflexivity;
      destruct H; discriminate.
  - destruct (raw_exitRequest options); cbn; intros H; [eauto|].
    destruct H; discriminate.
  - destruct (raw_exitRequest options); cbn; intros H; [eauto|].
    destruct H; discriminate.
Qed.

(** * The sequencer: further properties *)

Lemma probe_started (options : RawOptions) :
  probe options true = inr (started options).
Proof. reflexivity. Qed.

Lemma started_sequenced (options : RawOptions)
    (schedule : list (nat * hrtime * Event)) :
  sequenced (isProbe options) (merge_defaults options)
    (run options schedule (started options)).
Proof.
  apply (run_sequenced (isProbe options) (merge_defaults options) schedule
           (started options) (sequenced_start options)).
Qed.

Lemma deliver_results_prefix (probeMode : bool) (options : Options)
    (w : World) (e : nat * hrtime * Event) :
  results w `prefix_of` results (deliver probeMode options w e) /\
  reports w `prefix_of` reports (deliver probeMode options w e).
Proof.
  destruct e as [[k now] ev]. unfold deliver.
  destruct (thrown w); [split; reflexivity|].
  destruct (sockets w !! k) as [a|]; [|split; reflexivity].
  destruct (emits a ev); [|split; reflexivity].
  destruct (handle probeMode options (i w) now ev a) as [a' [r|]];
    [|split; reflexivity].
  unfold push_and_check, check. cbn [i results sockets reports thrown].
  destruct (_ <? _); cbn; [split; [apply prefix_app_r|]; reflexivity|].
  destruct (aggregate probeMode options (results w ++ [r])); cbn;
    split; try apply prefix_app_r; reflexivity.
Qed.

(** [results] and the reports handed to the callback only ever grow at the
    end: whatever more the event loop delivers, in either mode, a result
    once pushed is neither changed, removed nor reordered. *)
Theorem results_are_append_only (options : RawOptions)
    (earlier later : list (nat * hrtime * Event)) (w : World) :
  results (run options earlier w)
    `prefix_of` results (run options (earlier ++ later) w) /\
  reports (run options earlier w)
    `prefix_of` reports (run options (earlier ++ later) w).
Proof.
  unfold run. rewrite fold_left_app.
  generalize (fold_left (deliver (isProbe options) (merge_defaults options))
                earlier w) as w1.
  induction later as [|e later IH]; intros w1; cbn [fold_left].
  - split; reflexivity.
  - destruct (deliver_results_prefix (isProbe options)
                (merge_defaults options) w1 e) as [Hr Hp].
    destruct (IH (deliver (isProbe options) (merge_defaults options) w1 e))
      as [Hr' Hp'].
    split; etransitivity; eassumption.
Qed.

Lemma run_counts (options : RawOptions)
    (schedule : list (nat * hrtime * Event)) :
  let n := attempts_made (merge_defaults options) in
  let w := run options schedule (started options) in
  (length (sockets w) <= n)%nat /\
  (length (results w) <= n)%nat /\
  Forall (fun out => length (Report.results out) = n) (reports w).
Proof.
  intros n w.
  pose proof (started_sequenced options schedule) as Hw. fold w in Hw.
  destruct Hw as [Ht Hl Ho Hs Hp]. fold n in Hp.
  destruct Hp as [(Hi & Hr & Hlen & _)|(Hi & Hlen & out & Hr & Hres)].
  - rewrite Hr. repeat split; try lia. constructor.
  - rewrite Hr. repeat split; try lia.
    constructor; [|constructor]. rewrite Hres. lia.
Qed.

(** For every value of [attempts], zero and negative ones included, and
    every sequence of events: a call never opens more than
    [max(1, attempts)] sockets, and the report the callback receives holds
    exactly [max(1, attempts)] results. *)
Theorem attempts_made_is_max_1_attempts (options : RawOptions)
    (schedule : list (nat * hrtime * Event)) :
  let n := Z.to_nat (Z.max 1 (attempts (merge_defaults options))) in
  let w := run options schedule (started options) in
  probe options true = inr (started options) /\
  (length (sockets w) <= n)%nat /\
  (length (results w) <= n)%nat /\
  Forall (fun out => length (Report.results out) = n) (reports w).
Proof.
  intros n w. split; [reflexivity|].
  exact (run_counts options schedule).
Qed.

(** [ping] without an [attempts] makes ten attempts: whenever the callback
    is called its report has ten results, and it has been called once each
    of the ten attempts has received an event that finalizes it. *)
Theorem ping_makes_ten_attempts (options : RawOptions)
    (schedule : list (nat * hrtime * Event)) (now : hrtime) :
  raw_attempts options = None ->
  let w := run (ping_options options) schedule
             (started (ping_options options)) in
  Forall (fun out => length (Report.results out) = 10%nat) (reports w) /\
  exists out,
    reports (run (ping_options options)
               (schedule ++ settle (isProbe options) now 10)
               (started (ping_options options))) = [out].
Proof.
  intros Hnone w.
  assert (Hn : attempts_made (merge_defaults (ping_options options)) = 10%nat)
    by (unfold attempts_made; cbn; rewrite Hnone; reflexivity).
  split.
  - destruct (run_counts (ping_options options) schedule) as (_ & _ & H).
    rewrite Hn in H. exact H.
  - unfold run. rewrite fold_left_app. rewrite <- Hn.
    apply (settle_reports (isProbe options)
             (merge_defaults (ping_options options)) now).
    exact (started_sequenced (ping_options options) schedule).
Qed.

Lemma ping_makes_ten_attempts_witness :
  let options := with_request "PING" in
  let schedule := [(0%nat, ms 1, EvConnect); (0%nat, ms 2, EvClose)] in
  Forall (fun out => length (Report.results out) = 10%nat)
    (reports (run (ping_options options) schedule
                (started (ping_options options)))) /\
  exists out,
    reports (run (ping_options options)
               (schedule ++ settle (isProbe options) (ms 9) 10)
               (started (ping_options options))) = [out].
Proof.
  intros options schedule.
  apply (ping_makes_ten_attempts options schedule (ms 9)). reflexivity.
Defined.

(** At every moment, in either mode, at most one attempt is pending: in
    probe mode every socket but the one of attempt [i] has pushed its
    result, and in plain mode every socket but that one is destroyed. *)
Theorem attempts_never_overlap (options : RawOptions)
    (schedule : list (nat * hrtime * Event)) (k : nat) (a : Attempt) :
  let w := run options schedule (started options) in
  sockets w !! k = Some a ->
  k <> i w ->
  if isProbe options then didPushResults a = true else destroyed a = true.
Proof.
  intros w Hk Hne.
  pose proof (started_sequenced options schedule) as Hw. fold w in Hw.
  pose proof (lookup_lt_Some _ _ _ Hk) as Hlt.
  apply (seq_spent _ _ _ Hw k a); [|exact Hk].
  destruct (seq_phase _ _ _ Hw) as [(_ & _ & Hlen & _)|(_ & Hlen & _)]; lia.
Qed.

Lemma attempts_never_overlap_witness :
  let options := with_attempts 2 in
  let w := run options [(0%nat, ms 1, EvConnect)] (started options) in
  let a := s_destroy (new_attempt false (merge_defaults options)) in
  sockets w !! 0%nat = Some a /\ 0%nat <> i w /\ destroyed a = true.
Proof.
  intros options w a.
  assert (H1 : sockets w !! 0%nat = Some a) by reflexivity.
  assert (H2 : 0%nat <> i w) by (vm_compute; discriminate).
  split; [exact H1|]. split; [exact H2|].
  apply (attempts_never_overlap options [(0%nat, ms 1, EvConnect)] 0 a H1 H2).
Defined.

(** * The shape of the results *)

(** An invariant of the attempts and a property of what they push carry over
    to the whole store. *)
Lemma deliver_invariant (probeMode : bool) (options : Options)
    (I : Attempt -> Prop) (P : Result -> Prop) :
  I (new_attempt probeMode options) ->
  (forall n now ev a, I a -> I (fst (handle probeMode options n now ev a))) ->
  (forall n now ev a r,
      I a -> snd (handle probeMode options n now ev a) = Some r -> P r) ->
  forall w e,
    Forall I (sockets w) -> Forall P (results w) ->
    Forall I (sockets (deliver probeMode options w e)) /\
    Forall P (results (deliver probeMode options w e)).
Proof.
  intros Hnew Hkeep Hpush w [[k now] ev] HI HP. unfold deliver.
  destruct (thrown w); [auto|].
  destruct (sockets w !! k) as [a|] eqn:Ek; [|auto].
  destruct (emits a ev); [|auto].
  assert (Ha : I a) by (eapply Forall_lookup_1; eassumption).
  pose proof (Hkeep (i w) now ev a Ha) as Ha'.
  pose proof (Hpush (i w) now ev a) as Hr.
  destruct (handle probeMode options (i w) now ev a) as [a' [r|]];
    cbn [fst snd] in *.
  - assert (HI' : Forall I (<[k:=a']> (sockets w)))
      by (apply Forall_insert; assumption).
    assert (HP' : Forall P (results w ++ [r])).
    { apply Forall_app. split; [exact HP|].
      constructor; [apply Hr; auto | constructor]. }
    unfold push_and_check, check. cbn [i results sockets reports thrown].
    destruct (_ <? _); cbn.
    + split; [|exact HP']. apply Forall_app. split; [exact HI'|].
      constructor; [exact Hnew | constructor].
    + destruct (aggregate probeMode options (results w ++ [r])); cbn; auto.
  - cbn. split; [|exact HP]. apply Forall_insert; assumption.
Qed.

Lemma run_invariant (options : RawOptions)
    (I : Attempt -> Prop) (P : Result -> Prop) :
  I (new_attempt (isProbe options) (merge_defaults options)) ->
  (forall n now ev a,
      I a -> I (fst (handle (isProbe options) (merge_defaults options)
                       n now ev a))) ->
  (forall n now ev a r,
      I a ->
      snd (handle (isProbe options) (merge_defaults options) n now ev a)
      = Some r -> P r) ->
  forall schedule,
    let w := run options schedule (started options) in
    Forall P (results w) /\
    Forall (fun out => Forall P (Report.results out)) (reports w).
Proof.
  intros Hnew Hkeep Hpush schedule w.
  assert (H : Forall I (sockets w) /\ Forall P (results w)).
  { unfold w, run.
    assert (H0 : Forall I (sockets (started options)) /\
                 Forall P (results (started options))).
    { cbn. split; [|constructor]. constructor; [exact Hnew | constructor]. }
    revert H0. generalize (started options) as w0.
    induction schedule as [|e schedule IH]; intros w0 [HI HP]; cbn [fold_left].
    - auto.
    - apply IH.
      apply (deliver_invariant _ _ I P Hnew Hkeep Hpush w0 e HI HP). }
  destruct H as [_ HP]. split; [exact HP|].
  pose proof (started_sequenced options schedule) as Hw. fold w in Hw.
  destruct (seq_phase _ _ _ Hw) as [(_ & Hr & _)|(_ & _ & out & Hr & Hres)];
    rewrite Hr.
  - constructor.
  - constructor; [rewrite Hres; exact HP | constructor].
Qed.

Lemma plain_event_shape (n : nat) (now : hrtime) (ev : Event) (a : Attempt)
    (r : Result) :
  snd (plain_event n now ev a) = Some r -> plain_shape r /\ seq r = n.
Proof.
  unfold plain_shape.
  destruct ev; cbn; intros [= <-]; cbn; repeat split; auto.
Qed.

(** In plain mode, for every sequence of events, every result pushed and
    every result of the report has either a [time] and no [err] or an [err]
    and no [time], and none of [conTime], [match], [bytes], [data]. *)
Theorem plain_results_have_time_or_err (options : RawOptions)
    (schedule : list (nat * hrtime * Event)) :
  isProbe options = false ->
  let w := run options schedule (started options) in
  Forall plain_shape (results w) /\
  Forall (fun out => Forall plain_shape (Report.results out)) (reports w).
Proof.
  intros Hplain.
  apply (run_invariant options (fun _ => True) plain_shape); auto.
  intros n now ev a r _. rewrite Hplain. cbn [handle].
  intros H. apply (plain_event_shape n now ev a r H).
Qed.

Lemma plain_results_have_time_or_err_witness :
  let options := with_attempts 2 in
  let schedule := [(0%nat, ms 1, EvConnect); (1%nat, ms 5000, EvTimeout)] in
  let w := run options schedule (started options) in
  Forall plain_shape (results w) /\
  Forall (fun out => Forall plain_shape (Report.results out)) (reports w).
Proof.
  intros options schedule.
  apply (plain_results_have_time_or_err options schedule). reflexivity.
Defined.

(** A result the probe branch pushes is read off the closure as it stands,
    with the error the trigger supplies spread last. *)
Lemma pushed_is_recorded (options : Options) (n : nat) (now : hrtime)
    (ev : Event) (a : Attempt) (r : Result) :
  snd (probe_event options n now ev a) = Some r ->
  didPushResults a = false /\ reaches_finalize ev = true /\
  (r = recorded options n now None a \/
   r = recorded options n now (Some ResponseTimeout)
         (latch_lastErr ResponseTimeout a)).
Proof.
  intros Hr. destruct (didPushResults a) eqn:G.
  - destruct (finalized_is_silent options n now ev a G) as [Hnone _].
    congruence.
  - destruct (reaches_finalize ev) eqn:Hev.
    + rewrite (first_finalize_records options n now ev a Hev G) in Hr.
      injection Hr as <-. repeat split. destruct ev; auto.
    + destruct (other_events_keep_guard options n now ev a Hev) as [Hnone _].
      congruence.
Qed.

Lemma probe_event_fst (options : Options) (n : nat) (now : hrtime)
    (ev : Event) (a : Attempt) :
  fst (probe_event options n now ev a)
  = match ev with
    | EvConnect => onConnect options now a
    | EvData d => onData options d a
    | EvError e => onError e a
    | EvFinish => onFinish a
    | EvClose | EvTimeout => after_probeResultCheck options a
    | EvResponseTimer =>
        if didPushResults a then a
        else after_probeResultCheck options (latch_lastErr ResponseTimeout a)
    end.
Proof.
  destruct ev; cbn [probe_event fst]; try reflexivity;
    unfold onResponseTimer, probeResultCheck, after_probeResultCheck; cbn;
    destruct (didPushResults a); reflexivity.
Qed.

(** Every branch of every handler of the probe branch, laid open. *)
Ltac open_handlers :=
  unfold after_probeResultCheck, onConnect, onData, onError, onFinish,
    check_exceeded, check_match, append_capped, truncate_to_cap,
    append_chunk, request_exit;
  repeat case_match; cbn in *.

Lemma probe_event_buffer_iff_connected (options : Options) (n : nat)
    (now : hrtime) (ev : Event) (a : Attempt) :
  buffer_iff_connected a ->
  buffer_iff_connected (fst (probe_event options n now ev a)).
Proof.
  unfold buffer_iff_connected. intros H. rewrite probe_event_fst.
  destruct ev; open_handlers; subst; cbn in *;
    repeat match goal with
           | E : responseBuffer a = _ |- _ => try rewrite E; clear E
           end;
    try exact H; split; intros _; eauto; apply H; eauto.
Qed.

Lemma recorded_probe_shape (options : Options) (n : nat) (now : hrtime)
    (result : TriggerFields) (a : Attempt) :
  buffer_iff_connected a ->
  probe_shape options (recorded options n now result a).
Proof.
  unfold buffer_iff_connected, probe_shape, recorded. intros H. cbn.
  destruct (connectTime a) as [t|], (responseBuffer a) as [b|]; cbn;
    try (exfalso; eapply is_Some_None; apply H; eauto; fail);
    destruct (capture options), (truthy_matcher (match_ options));
    unfold is_Some; repeat split; intros;
    repeat match goal with
           | H : _ /\ _ |- _ => destruct H
           | H : exists _, _ |- _ => destruct H
           end;
    try discriminate; try congruence; eauto.
Qed.

(** In probe mode, for every sequence of events, every result pushed and
    every result of the report has [time], [conTime] and [bytes] present
    together (after a connect) or missing together; [data] present exactly
    when capturing and connected, holding as many bytes as [bytes] says;
    and [match] present exactly when a match is configured. *)
Theorem probe_results_are_consistent (options : RawOptions)
    (schedule : list (nat * hrtime * Event)) :
  isProbe options = true ->
  let w := run options schedule (started options) in
  Forall (probe_shape (merge_defaults options)) (results w) /\
  Forall (fun out => Forall (probe_shape (merge_defaults options))
                       (Report.results out)) (reports w).
Proof.
  intros Hprobe.
  apply (run_invariant options buffer_iff_connected
           (probe_shape (merge_defaults options))).
  - rewrite Hprobe. unfold buffer_iff_connected. cbn.
    split; intros H; destruct (is_Some_None H).
  - intros n now ev a Ha. rewrite Hprobe. cbn [handle].
    apply probe_event_buffer_iff_connected; exact Ha.
  - intros n now ev a r Ha. rewrite Hprobe. cbn [handle]. intros Hr.
    destruct (pushed_is_recorded _ n now ev a r Hr) as (_ & _ & [->| ->]);
      apply recorded_probe_shape; exact Ha.
Qed.

Lemma probe_results_are_consistent_witness :
  let options := ping_pong 4 2 in
  let w := run options refused_then_matched (started options) in
  Forall (probe_shape (merge_defaults options)) (results w) /\
  Forall (fun out => Forall (probe_shape (merge_defaults options))
                       (Report.results out)) (reports w).
Proof.
  intros options.
  apply (probe_results_are_consistent options refused_then_matched).
  reflexivity.
Defined.

(** * One attempt: what the handlers keep *)

Lemma run_attempt_state (options : Options) (I : Attempt -> Prop) :
  (forall n now ev a, I a -> I (fst (probe_event options n now ev a))) ->
  forall n evs a, I a -> I (fst (run_attempt true options n evs a)).
Proof.
  intros Hkeep n evs. induction evs as [|[now ev] evs IH]; intros a Ha.
  - exact Ha.
  - rewrite run_attempt_fst_cons. apply IH. apply (Hkeep n now ev a Ha).
Qed.

Lemma probe_event_released (options : Options) (n : nat) (now : hrtime)
    (ev : Event) (a : Attempt) :
  released a -> released (fst (probe_event options n now ev a)).
Proof.
  unfold released. intros H. rewrite probe_event_fst.
  destruct ev; open_handlers; intros; subst; auto; try congruence;
    destruct H as [? ?]; try congruence; auto.
Qed.

(** In probe mode, for every sequence of events of an attempt: once the
    attempt has finalized, [s.end()] has been called and no response timer
    is pending, whichever trigger finalized it. *)
Theorem finalized_attempt_is_released (options : Options) (n : nat)
    (evs : list (hrtime * Event)) :
  let a := fst (run_attempt true options n evs (new_attempt true options)) in
  didPushResults a = true ->
  ended a = true /\ responseTimeoutRef a = None.
Proof.
  apply (run_attempt_state options released
           (probe_event_released options) n evs).
  unfold released. cbn. discriminate.
Qed.

Lemma finalized_attempt_is_released_witness :
  let options := merge_defaults ping_200 in
  let evs := [(ms 1, EvConnect); (ms 5000, EvResponseTimer)] in
  let a := fst (run_attempt true options 0 evs (new_attempt true options)) in
  ended a = true /\ responseTimeoutRef a = None.
Proof.
  intros options evs a.
  apply (finalized_attempt_is_released options 0 evs). reflexivity.
Defined.

Lemma probe_event_keeps_lastErr (options : Options) (e : Err) (n : nat)
    (now : hrtime) (ev : Event) (a : Attempt) :
  lastErr a = Some e ->
  lastErr (fst (probe_event options n now ev a)) = Some e.
Proof.
  intros H. rewrite probe_event_fst.
  destruct ev; open_handlers; subst; cbn in *; rewrite ?H; congruence.
Qed.

(** In probe mode the first fault latched in [lastErr] is never replaced:
    no later socket error, overflow or timer changes it, whatever events
    follow. *)
Theorem first_latched_error_is_kept (options : Options) (n : nat)
    (evs : list (hrtime * Event)) (a : Attempt) (e : Err) :
  lastErr a = Some e ->
  lastErr (fst (run_attempt true options n evs a)) = Some e.
Proof.
  intros H.
  apply (run_attempt_state options (fun a => lastErr a = Some e)
           (probe_event_keeps_lastErr options e) n evs a H).
Qed.

Lemma first_latched_error_is_kept_witness :
  let options := merge_defaults (ping_pong 2 1) in
  let a := onError (TransportError "ECONNRESET")
             (onConnect options (ms 1) (new_attempt true options)) in
  lastErr (fst (run_attempt true options 0
                  [(ms 2, EvData (list_byte_of_string "PONG"));
                   (ms 3, EvError (TransportError "EPIPE"));
                   (ms 4, EvResponseTimer)] a))
  = Some (TransportError "ECONNRESET").
Proof.
  intros options a.
  apply (first_latched_error_is_kept options 0 _ a). reflexivity.
Defined.




(** In probe mode, when the response timer is the first trigger to finalize
    an attempt, the recorded [err] is [Response timeout] whatever happened
    before: a socket error or an overflow latched earlier is overridden. *)
Theorem response_timer_overrides_latched_error (options : Options) (n : nat)
    (pre : list (hrtime * Event)) (now : hrtime) :
  forallb (fun e => negb (reaches_finalize (snd e))) pre = true ->
  exists r,
    snd (run_attempt true options n (pre ++ [(now, EvResponseTimer)])
           (new_attempt true options)) = [r] /\
    err r = Some ResponseTimeout.
Proof.
  intros Hpre.
  rewrite (run_then_finalize options n pre now EvResponseTimer
             (new_attempt true options) Hpre eq_refl eq_refl).
  eexists. split; reflexivity.
Qed.

Lemma response_timer_overrides_latched_error_witness :
  let options := merge_defaults (ping_pong 2 1) in
  let pre := [(ms 1, EvConnect);
              (ms 2, EvError (TransportError "ECONNRESET"))] in
  exists r,
    snd (run_attempt true options 0 (pre ++ [(ms 5000, EvResponseTimer)])
           (new_attempt true options)) = [r] /\
    err r = Some ResponseTimeout.
Proof.
  intros options pre.
  apply (response_timer_overrides_latched_error options 0 pre (ms 5000)).
  reflexivity.
Defined.

Lemma probe_event_keeps_connectTime (options : Options) (n : nat)
    (now : hrtime) (ev : Event) (a : Attempt) :
  is_connect ev = false ->
  connectTime (fst (probe_event options n now ev a)) = connectTime a.
Proof.
  intros H. rewrite probe_event_fst.
  destruct ev; try discriminate; open_handlers; reflexivity.
Qed.

Lemma run_keeps_connectTime (options : Options) (n : nat)
    (evs : list (hrtime * Event)) (a : Attempt) :
  before_connect evs = true ->
  connectTime (fst (run_attempt true options n evs a)) = connectTime a.
Proof.
  revert a. induction evs as [|[now ev] evs IH]; intros a H; [reflexivity|].
  cbn in H. apply andb_true_iff in H as [Hev Hevs].
  apply andb_true_iff in Hev as [_ Hcon]. apply negb_true_iff in Hcon.
  rewrite run_attempt_fst_cons. cbn [handle]. rewrite (IH _ Hevs).
  apply probe_event_keeps_connectTime; exact Hcon.
Qed.

Lemma to_ms_monotone (t0 t1 : hrtime) :
  total_ns t0 <= total_ns t1 -> (to_ms t0 <= to_ms t1)%Q.
Proof.
  unfold total_ns, to_ms, Qdiv. intros H.
  apply Qmult_le_compat_r.
  - rewrite <- Zle_Qle. exact H.
  - apply Qinv_le_0_compat. unfold Qle. cbn. lia.
Qed.

(** In probe mode, for an attempt that connects and is finalized later with
    a clock reading that is not before the one at the connect, the result
    has [conTime] the reading at the connect, [time] the reading at the
    finalize, and [conTime <= time], whatever data, errors or finish events
    come in between and whichever trigger finalizes. *)
Theorem time_is_not_before_conTime (options : Options) (n : nat)
    (t0 now : hrtime) (mid : list (hrtime * Event)) (ev : Event) :
  before_connect mid = true ->
  reaches_finalize ev = true ->
  total_ns t0 <= total_ns now ->
  exists r,
    snd (run_attempt true options n ((t0, EvConnect) :: mid ++ [(now, ev)])
           (new_attempt true options)) = [r] /\
    conTime r = Some (to_ms t0) /\ time r = Some (to_ms now) /\
    (to_ms t0 <= to_ms now)%Q.
Proof.
  intros Hmid Hev Ht.
  change ((t0, EvConnect) :: mid ++ [(now, ev)])
    with (((t0, EvConnect) :: mid) ++ [(now, ev)]).
  rewrite (run_then_finalize options n ((t0, EvConnect) :: mid) now ev
             (new_attempt true options)).
  - rewrite run_attempt_fst_cons. cbn [handle probe_event fst].
    pose proof (run_keeps_connectTime options n mid
                  (onConnect options t0 (new_attempt true options)) Hmid)
      as Hc.
    cbn [onConnect connectTime set_responseBuffer s_write set_connectTime]
      in Hc.
    eexists. split; [reflexivity|].
    destruct ev; try discriminate; unfold recorded; cbn; rewrite Hc;
      repeat split; try reflexivity; apply to_ms_monotone; exact Ht.
  - cbn [forallb reaches_finalize snd negb andb].
    apply before_connect_no_finalize; exact Hmid.
  - exact Hev.
  - reflexivity.
Qed.

Lemma time_is_not_before_conTime_witness :
  let options := merge_defaults (ping_pong 4 1) in
  let mid := [(ms 2, EvData (list_byte_of_string "PONG")); (ms 3, EvFinish)] in
  exists r,
    snd (run_attempt true options 0
           ((ms 1, EvConnect) :: mid ++ [(ms 4, EvClose)])
           (new_attempt true options)) = [r] /\
    conTime r = Some (to_ms (ms 1)) /\ time r = Some (to_ms (ms 4)) /\
    (to_ms (ms 1) <= to_ms (ms 4))%Q.
Proof.
  intros options mid.
  apply (time_is_not_before_conTime options 0 (ms 1) (ms 4) mid EvClose).
  - reflexivity.
  - reflexivity.
  - vm_compute. discriminate.
Defined.

(** * Matching the response *)

Lemma starts_with_spec (b pat : Buffer) :
  starts_with b pat = true <-> exists post, b = pat ++ post.
Proof.
  revert b. induction pat as [|p pat IH]; intros [|x b]; cbn.
  - split; [intros _; exists []; reflexivity | reflexivity].
  - split; [intros _; exists (x :: b); reflexivity | reflexivity].
  - split; [discriminate | intros (post & H); discriminate].
  - rewrite andb_true_iff, IH. unfold byte_eqb. split.
    + intros (Hx & post & ->). apply Byte.byte_dec_bl in Hx. subst.
      exists post. reflexivity.
    + intros (post & [= -> ->]). split; [apply Byte.byte_dec_lb; reflexivity|].
      exists post. reflexivity.
Qed.

Lemma Buffer_includes_unfold (b pat : Buffer) :
  Buffer_includes b pat
  = starts_with b pat ||
    match b with
    | [] => false
    | _ :: b' => Buffer_includes b' pat
    end.
Proof. destruct b; reflexivity. Qed.

(** [includes] finds exactly the contiguous occurrences. *)
Lemma Buffer_includes_spec (b pat : Buffer) :
  Buffer_includes b pat = true <-> contains b pat.
Proof.
  unfold contains. split.
  - induction b as [|x b IH]; rewrite Buffer_includes_unfold, orb_true_iff.
    + intros [H|H]; [|discriminate].
      apply starts_with_spec in H as (post & ->). exists [], post. reflexivity.
    + intros [H|H].
      * apply starts_with_spec in H as (post & ->). exists [], post.
        reflexivity.
      * destruct (IH H) as (pre & post & ->). exists (x :: pre), post.
        reflexivity.
  - intros (pre & post & ->). induction pre as [|x pre IH];
      rewrite Buffer_includes_unfold, orb_true_iff.
    + left. apply starts_with_spec. exists post. reflexivity.
    + right. exact IH.
Qed.

Lemma contains_prefix (b more pat : Buffer) :
  contains b pat -> contains (b ++ more) pat.
Proof.
  intros (pre & post & ->). exists pre, (post ++ more).
  rewrite <- !app_assoc. reflexivity.
Qed.

Lemma check_match_didMatch (options : Options) (m : Matcher) (a : Attempt) :
  match_ options = Some m ->
  truthy_matcher (Some m) = true ->
  didMatch (check_match options a)
  = didMatch a || test_match options m (default [] (responseBuffer a)).
Proof.
  intros Hm Ht. unfold check_match. rewrite Hm, Ht. cbn [andb].
  destruct (test_match options m (default [] (responseBuffer a))).
  - cbn. destruct (request_exit_fields options (set_didMatch a))
      as (_ & _ & _ & -> & _). cbn. rewrite orb_true_r. reflexivity.
  - rewrite orb_false_r. reflexivity.
Qed.

Lemma check_exceeded_didMatch (options : Options) (a : Attempt) :
  didMatch (check_exceeded options a) = didMatch a.
Proof.
  unfold check_exceeded. destruct (didExceedResponseBytes a); [|reflexivity].
  cbn. destruct (request_exit_fields options
                   (latch_lastErr MaxResponseBytesExceeded a))
    as (_ & _ & _ & -> & _). reflexivity.
Qed.

Lemma onData_didMatch (options : Options) (m : Matcher) (d : Buffer)
    (a : Attempt) (buf : Buffer) :
  0 <= maxResponseBytes options ->
  responseBuffer a = Some buf ->
  Buffer_length buf <= maxResponseBytes options ->
  didPushResults a = false ->
  match_ options = Some m ->
  truthy_matcher (Some m) = true ->
  didMatch (onData options d a)
  = didMatch a
    || test_match options m
         (firstn (Z.to_nat (maxResponseBytes options)) (buf ++ d)).
Proof.
  intros Hmax Hb Hlen G Hm Ht. unfold onData. rewrite Hb, G.
  destruct (append_capped_spec options buf d a Hmax Hb Hlen)
    as (Hb1 & _ & _ & _ & Hd1).
  rewrite check_exceeded_didMatch, (check_match_didMatch options m _ Hm Ht).
  rewrite Hb1, Hd1. reflexivity.
Qed.

Lemma received_app (c1 c2 : list (hrtime * Buffer)) :
  received (c1 ++ c2) = received c1 ++ received c2.
Proof.
  unfold received. rewrite map_app, concat_app. reflexivity.
Qed.

(** * The aggregator: what it computes *)

Lemma sum_time_fold (rs : list Result) (acc : Q) :
  fold_left (fun prev curr =>
               match time curr with
               | None => prev
               | Some t => (prev + t)%Q
               end) rs acc
  = fold_left Qplus (defined_times time rs) acc.
Proof.
  revert acc. induction rs as [|r rs IH]; intros acc; [reflexivity|].
  unfold defined_times in *. cbn. destruct (time r); cbn; apply IH.
Qed.

Lemma dropped_plus_defined (rs : list Result) :
  (count_dropped rs + length (defined_times time rs))%nat = length rs.
Proof.
  rewrite count_dropped_spec. unfold defined_times.
  induction rs as [|r rs IH]; [reflexivity|].
  rewrite filter_cons. cbn. destruct (time r) eqn:E; cbn.
  - rewrite decide_False by congruence. lia.
  - rewrite decide_True by reflexivity. cbn. lia.
Qed.

(** For every non-empty [results], in either mode: the report carries
    [results] unchanged; [dropped] is the number of results without a
    [time]; and [avg] is the sum of the times that are defined divided by
    their number, or NaN when every attempt was dropped. *)
Theorem aggregate_dropped_and_avg (probeMode : bool) (options : Options)
    (r : Result) (rs : list Result) :
  exists out,
    aggregate probeMode options (r :: rs) = inr out /\
    Report.results out = r :: rs /\
    Report.dropped out
    = length (filter (fun x => time x = None) (r :: rs)) /\
    (Report.dropped out + length (defined_times time (r :: rs)))%nat
    = length (r :: rs) /\
    Report.avg out
    = match defined_times time (r :: rs) with
      | [] => NaN
      | ts => Fin (fold_left Qplus ts 0%Q / inject_Z (Z.of_nat (length ts)))
      end.
Proof.
  eexists. split; [reflexivity|]. cbn [Report.results Report.dropped Report.avg].
  split; [reflexivity|]. split; [apply count_dropped_spec|].
  split; [apply dropped_plus_defined|].
  unfold sum_time. rewrite sum_time_fold.
  pose proof (dropped_plus_defined (r :: rs)) as Hlen.
  replace (Z.of_nat (length (r :: rs)) - Z.of_nat (count_dropped (r :: rs)))
    with (Z.of_nat (length (defined_times time (r :: rs)))) by lia.
  destruct (defined_times time (r :: rs)) as [|t ts]; [reflexivity|].
  unfold js_div. destruct (Z.eqb_spec (Z.of_nat (length (t :: ts))) 0) as [H|_];
    [cbn in H; lia | reflexivity].
Qed.

Lemma Qlt_bool_iff (x y : Q) : Qlt_bool x y = true <-> (x < y)%Q.
Proof. unfold Qlt_bool, Qlt. apply Z.ltb_lt. Qed.

Lemma reduce_max_all_defined (field : Result -> option Q) (rs : list Result)
    (m0 : Q) :
  Forall (fun r => is_Some (field r)) rs ->
  exists M,
    reduce_max field rs (Some m0) = Some M /\ (m0 <= M)%Q /\
    upper_bound field rs M /\ (M = m0 \/ attained field rs M).
Proof.
  unfold reduce_max, upper_bound, attained. intros Hall. revert m0.
  induction Hall as [|r rs [t Ht] _ IH]; intros m0.
  - exists m0. cbn. repeat split; [apply Qle_refl | intros ? ? [] | auto].
  - cbn [fold_left]. rewrite Ht. cbn [js_gt].
    destruct (Qlt_bool t m0) eqn:E.
    + apply Qlt_bool_iff in E.
      destruct (IH m0) as (M & HM & Hle & Hub & Hat).
      exists M. repeat split; [exact HM | exact Hle | |].
      * intros x u [<-|Hx] Hu; [|eauto].
        rewrite Ht in Hu. injection Hu as <-.
        apply Qlt_le_weak. eapply Qlt_le_trans; eassumption.
      * destruct Hat as [->|(x & Hx & Hxm)]; [auto|].
        right. exists x. split; [right; exact Hx | exact Hxm].
    + assert (Hge : (m0 <= t)%Q).
      { apply Qnot_lt_le. intros H. apply Qlt_bool_iff in H. congruence. }
      destruct (IH t) as (M & HM & Hle & Hub & Hat).
      exists M. repeat split; [exact HM | eapply Qle_trans; eassumption | |].
      * intros x u [<-|Hx] Hu; [|eauto].
        rewrite Ht in Hu. injection Hu as <-. exact Hle.
      * right. destruct Hat as [->|(x & Hx & Hxm)].
        -- exists r. split; [left; reflexivity | exact Ht].
        -- exists x. split; [right; exact Hx | exact Hxm].
Qed.

Lemma reduce_min_all_defined (field : Result -> option Q) (rs : list Result)
    (m0 : Q) :
  Forall (fun r => is_Some (field r)) rs ->
  exists M,
    reduce_min field rs (Some m0) = Some M /\ (M <= m0)%Q /\
    lower_bound field rs M /\ (M = m0 \/ attained field rs M).
Proof.
  unfold reduce_min, lower_bound, attained. intros Hall. revert m0.
  induction Hall as [|r rs [t Ht] _ IH]; intros m0.
  - exists m0. cbn. repeat split; [apply Qle_refl | intros ? ? [] | auto].
  - cbn [fold_left]. rewrite Ht. cbn [js_lt].
    destruct (Qlt_bool m0 t) eqn:E.
    + apply Qlt_bool_iff in E.
      destruct (IH m0) as (M & HM & Hle & Hlb & Hat).
      exists M. repeat split; [exact HM | exact Hle | |].
      * intros x u [<-|Hx] Hu; [|eauto].
        rewrite Ht in Hu. injection Hu as <-.
        apply Qlt_le_weak. eapply Qle_lt_trans; eassumption.
      * destruct Hat as [->|(x & Hx & Hxm)]; [auto|].
        right. exists x. split; [right; exact Hx | exact Hxm].
    + assert (Hge : (t <= m0)%Q).
      { apply Qnot_lt_le. intros H. apply Qlt_bool_iff in H. congruence. }
      destruct (IH t) as (M & HM & Hle & Hlb & Hat).
      exists M. repeat split; [exact HM | eapply Qle_trans; eassumption | |].
      * intros x u [<-|Hx] Hu; [|eauto].
        rewrite Ht in Hu. injection Hu as <-. exact Hle.
      * right. destruct Hat as [->|(x & Hx & Hxm)].
        -- exists r. split; [left; reflexivity | exact Ht].
        -- exists x. split; [right; exact Hx | exact Hxm].
Qed.

(** The reducers started on a non-empty list whose values are all defined,
    from [undefined] or from the first value. *)
Lemma reduce_max_nonempty (field : Result -> option Q) (r : Result)
    (rs : list Result) (init : option Q) :
  Forall (fun x => is_Some (field x)) (r :: rs) ->
  init = None \/ init = field r ->
  exists M,
    reduce_max field (r :: rs) init = Some M /\
    upper_bound field (r :: rs) M /\ attained field (r :: rs) M.
Proof.
  intros Hall Hinit. pose proof Hall as Hall'.
  apply Forall_cons in Hall' as [[t Ht] Hrs].
  assert (Hstep : reduce_max field (r :: rs) init
                  = reduce_max field rs (Some t)).
  { unfold reduce_max. cbn [fold_left]. rewrite Ht.
    destruct Hinit as [->| ->]; [reflexivity|].
    rewrite Ht. cbn [js_gt]. destruct (Qlt_bool t t); reflexivity. }
  destruct (reduce_max_all_defined field rs t Hrs) as (M & HM & Hle & Hub & Hat).
  exists M. rewrite Hstep. repeat split; [exact HM | |].
  - intros x u [<-|Hx] Hu; [|exact (Hub x u Hx Hu)].
    rewrite Ht in Hu. injection Hu as <-. exact Hle.
  - destruct Hat as [->|(x & Hx & Hxm)].
    + exists r. split; [left; reflexivity | exact Ht].
    + exists x. split; [right; exact Hx | exact Hxm].
Qed.

Lemma reduce_min_nonempty (field : Result -> option Q) (r : Result)
    (rs : list Result) (init : option Q) :
  Forall (fun x => is_Some (field x)) (r :: rs) ->
  init = None \/ init = field r ->
  exists M,
    reduce_min field (r :: rs) init = Some M /\
    lower_bound field (r :: rs) M /\ attained field (r :: rs) M.
Proof.
  intros Hall Hinit. pose proof Hall as Hall'.
  apply Forall_cons in Hall' as [[t Ht] Hrs].
  assert (Hstep : reduce_min field (r :: rs) init
                  = reduce_min field rs (Some t)).
  { unfold reduce_min. cbn [fold_left]. rewrite Ht.
    destruct Hinit as [->| ->]; [reflexivity|].
    rewrite Ht. cbn [js_lt]. destruct (Qlt_bool t t); reflexivity. }
  destruct (reduce_min_all_defined field rs t Hrs) as (M & HM & Hle & Hlb & Hat).
  exists M. rewrite Hstep. repeat split; [exact HM | |].
  - intros x u [<-|Hx] Hu; [|exact (Hlb x u Hx Hu)].
    rewrite Ht in Hu. injection Hu as <-. exact Hle.
  - destruct Hat as [->|(x & Hx & Hxm)].
    + exists r. split; [left; reflexivity | exact Ht].
    + exists x. split; [right; exact Hx | exact Hxm].
Qed.

(** When no attempt was dropped, [max] and [min] of the report are the
    greatest and the least [time] of the results: each is the [time] of some
    result and bounds the [time] of every result. *)
Theorem max_min_without_dropped_attempts (probeMode : bool)
    (options : Options) (r : Result) (rs : list Result) :
  Forall (fun x => is_Some (time x)) (r :: rs) ->
  exists out M m,
    aggregate probeMode options (r :: rs) = inr out /\
    Report.max out = Some M /\ Report.min out = Some m /\
    upper_bound time (r :: rs) M /\ attained time (r :: rs) M /\
    lower_bound time (r :: rs) m /\ attained time (r :: rs) m.
Proof.
  intros Hall.
  destruct (reduce_max_nonempty time r rs (time r) Hall (or_intror eq_refl))
    as (M & HM & Hub & HatM).
  destruct (reduce_min_nonempty time r rs (time r) Hall (or_intror eq_refl))
    as (m & Hm & Hlb & Hatm).
  eexists _, M, m. split; [reflexivity|].
  cbn [Report.max Report.min]. auto 10.
Qed.

Lemma max_min_without_dropped_attempts_witness :
  let rs := [plain_result 1 (Some 5%Q) None; plain_result 2 (Some 7%Q) None] in
  exists out M m,
    aggregate false (merge_defaults no_options)
      (plain_result 0 (Some 10%Q) None :: rs) = inr out /\
    Report.max out = Some M /\ Report.min out = Some m /\
    upper_bound time (plain_result 0 (Some 10%Q) None :: rs) M /\
    attained time (plain_result 0 (Some 10%Q) None :: rs) M /\
    lower_bound time (plain_result 0 (Some 10%Q) None :: rs) m /\
    attained time (plain_result 0 (Some 10%Q) None :: rs) m.
Proof.
  intros rs.
  apply (max_min_without_dropped_attempts false (merge_defaults no_options)
           (plain_result 0 (Some 10%Q) None) rs).
  repeat constructor; cbn; eauto.
Defined.

Lemma reduce_max_after_dropped (field : Result -> option Q)
    (pre suf : list Result) (r : Result) (init : option Q) :
  field r = None ->
  reduce_max field (pre ++ r :: suf) init = reduce_max field suf None.
Proof.
  intros Hr. unfold reduce_max. rewrite fold_left_app. cbn [fold_left].
  rewrite Hr. destruct (fold_left _ pre init); reflexivity.
Qed.

Lemma reduce_min_after_dropped (field : Result -> option Q)
    (pre suf : list Result) (r : Result) (init : option Q) :
  field r = None ->
  reduce_min field (pre ++ r :: suf) init = reduce_min field suf None.
Proof.
  intros Hr. unfold reduce_min. rewrite fold_left_app. cbn [fold_left].
  rewrite Hr. destruct (fold_left _ pre init); reflexivity.
Qed.

(** When an attempt was dropped, [max] and [min] of the report are those of
    the attempts after the last dropped one, whatever came before it: the
    greatest and the least of their times, and [undefined] when the last
    attempt itself was dropped. *)
Theorem max_min_restart_after_dropped_attempt (probeMode : bool)
    (options : Options) (pre suf : list Result) (r : Result) :
  time r = None ->
  Forall (fun x => is_Some (time x)) suf ->
  exists out,
    aggregate probeMode options (pre ++ r :: suf) = inr out /\
    match suf with
    | [] => Report.max out = None /\ Report.min out = None
    | _ =>
        exists M m,
          Report.max out = Some M /\ Report.min out = Some m /\
          upper_bound time suf M /\ attained time suf M /\
          lower_bound time suf m /\ attained time suf m
    end.
Proof.
  intros Hr Hsuf.
  destruct (aggregate_nonempty probeMode options (pre ++ r :: suf))
    as (out & Hout & _); [destruct pre; discriminate|].
  exists out. split; [exact Hout|].
  assert (Hmax : Report.max out = reduce_max time suf None /\
                 Report.min out = reduce_min time suf None).
  { destruct (pre ++ r :: suf) as [|first rest] eqn:E;
      [destruct pre; discriminate|].
    injection Hout as <-. cbn [Report.max Report.min].
    change (reduce_max time (first :: rest) (time first)
            = reduce_max time suf None /\
            reduce_min time (first :: rest) (time first)
            = reduce_min time suf None).
    rewrite <- E.
    rewrite (reduce_max_after_dropped time pre suf r _ Hr),
      (reduce_min_after_dropped time pre suf r _ Hr). auto. }
  destruct Hmax as [-> ->].
  destruct suf as [|x suf]; [auto|].
  destruct (reduce_max_nonempty time x suf None Hsuf (or_introl eq_refl))
    as (M & HM & Hub & HatM).
  destruct (reduce_min_nonempty time x suf None Hsuf (or_introl eq_refl))
    as (m & Hm & Hlb & Hatm).
  exists M, m. auto 10.
Qed.

Lemma max_min_restart_after_dropped_attempt_witness :
  let pre := [plain_result 0 (Some 10%Q) None] in
  let r := plain_result 1 None (Some RequestTimeout) in
  let suf := [plain_result 2 (Some 5%Q) None] in
  exists out,
    aggregate false (merge_defaults no_options) (pre ++ r :: suf) = inr out /\
    exists M m,
      Report.max out = Some M /\ Report.min out = Some m /\
      upper_bound time suf M /\ attained time suf M /\
      lower_bound time suf m /\ attained time suf m.
Proof.
  intros pre r suf.
  apply (max_min_restart_after_dropped_attempt false
           (merge_defaults no_options) pre suf r).
  - reflexivity.
  - repeat constructor; cbn; eauto.
Defined.

Lemma plain_shape_dropped_iff_err (r : Result) :
  plain_shape r -> (time r = None <-> is_Some (err r)).
Proof.
  intros (_ & _ & _ & _ & [[[t Ht] He]|[Ht He]]).
  - rewrite Ht, He. split; [discriminate | intros H; destruct (is_Some_None H)].
  - tauto.
Qed.

Lemma aggregate_results (probeMode : bool) (options : Options)
    (rs : list Result) (out : Report.t) :
  aggregate probeMode options rs = inr out -> Report.results out = rs.
Proof.
  destruct rs as [|r rs]; [discriminate|]. intros [= <-]. reflexivity.
Qed.

Lemma deliver_reports_are_aggregates (probeMode : bool) (options : Options)
    (w : World) (e : nat * hrtime * Event) :
  Forall (fun out => aggregate probeMode options (Report.results out)
                     = inr out) (reports w) ->
  Forall (fun out => aggregate probeMode options (Report.results out)
                     = inr out) (reports (deliver probeMode options w e)).
Proof.
  intros H0. destruct e as [[k now] ev]. unfold deliver.
  destruct (thrown w); [exact H0|].
  destruct (sockets w !! k) as [a|]; [|exact H0].
  destruct (emits a ev); [|exact H0].
  destruct (handle probeMode options (i w) now ev a) as [a' [r|]];
    [|exact H0].
  unfold push_and_check, check. cbn [i results sockets reports thrown].
  destruct (_ <? _); cbn; [exact H0|].
  destruct (aggregate probeMode options (results w ++ [r])) as [e|out] eqn:E;
    cbn; [exact H0|].
  apply Forall_app. split; [exact H0|].
  constructor; [|constructor].
  rewrite (aggregate_results _ _ _ _ E). exact E.
Qed.

Lemma reports_are_aggregates (options : RawOptions)
    (schedule : list (nat * hrtime * Event)) :
  Forall (fun out =>
            aggregate (isProbe options) (merge_defaults options)
              (Report.results out) = inr out)
         (reports (run options schedule (started options))).
Proof.
  unfold run.
  assert (H0 : Forall (fun out =>
             aggregate (isProbe options) (merge_defaults options)
               (Report.results out) = inr out)
             (reports (started options))) by constructor.
  revert H0. generalize (started options) as w0.
  induction schedule as [|e schedule IH]; intros w0 H0; [exact H0|].
  cbn [fold_left]. apply IH. apply deliver_reports_are_aggregates. exact H0.
Qed.

Lemma aggregate_plain_fields (options : Options) (rs : list Result)
    (out : Report.t) :
  aggregate false options rs = inr out ->
  Report.dropped out = count_dropped rs /\ Report.probe out = None.
Proof.
  destruct rs as [|r rs]; [discriminate|]. intros [= <-]. split; reflexivity.
Qed.

Lemma plain_dropped_is_errors (rs : list Result) :
  Forall plain_shape rs -> count_dropped rs = count_errors rs.
Proof.
  intros H. rewrite count_dropped_spec. unfold count_errors.
  induction H as [|r rs Hr _ IH]; [reflexivity|].
  rewrite !filter_cons.
  pose proof (plain_shape_dropped_iff_err r Hr) as Hiff.
  destruct (decide (time r = None)) as [Ht|Ht];
    destruct (decide (is_Some (err r))) as [He|He]; cbn; try lia; tauto.
Qed.

(** In plain mode, for every sequence of events, the report the callback
    receives has no probe fields ([matches], [errors], [conAvg], ...), and
    its [dropped] is the number of its results that carry an [err]: the
    attempts counted as dropped are exactly the failed ones. *)
Theorem plain_dropped_counts_the_errors (options : RawOptions)
    (schedule : list (nat * hrtime * Event)) :
  isProbe options = false ->
  Forall (fun out =>
            Report.dropped out = count_errors (Report.results out) /\
            Report.probe out = None)
         (reports (run options schedule (started options))).
Proof.
  intros Hplain.
  destruct (run_invariant options (fun _ => True) plain_shape) with
    (schedule := schedule) as [_ Hshape]; auto.
  { intros n now ev a r _. rewrite Hplain. cbn [handle].
    intros H. apply (plain_event_shape n now ev a r H). }
  pose proof (reports_are_aggregates options schedule) as Hagg.
  rewrite Forall_forall in *. intros out Hin.
  specialize (Hshape out Hin). specialize (Hagg out Hin).
  rewrite <- (plain_dropped_is_errors _ Hshape).
  rewrite Hplain in Hagg.
  apply aggregate_plain_fields in Hagg. exact Hagg.
Qed.

Lemma plain_dropped_counts_the_errors_witness :
  let options := with_attempts 2 in
  let schedule := [(0%nat, ms 1, EvConnect); (1%nat, ms 5000, EvTimeout)] in
  Forall (fun out =>
            Report.dropped out = count_errors (Report.results out) /\
            Report.probe out = None)
         (reports (run options schedule (started options))).
Proof.
  intros options schedule.
  apply (plain_dropped_counts_the_errors options schedule). reflexivity.
Defined.

(** * A connected attempt: data, errors and finish in any order *)

Lemma before_connect_cons (e : hrtime * Event) (evs : list (hrtime * Event)) :
  before_connect (e :: evs) = true ->
  (exists d, snd e = EvData d) \/ (exists x, snd e = EvError x) \/
  snd e = EvFinish.
Proof.
  destruct e as [t ev]. cbn. intros H.
  apply andb_true_iff in H as [H _]. destruct ev; try discriminate; eauto.
Qed.

Lemma before_connect_tail (e : hrtime * Event) (evs : list (hrtime * Event)) :
  before_connect (e :: evs) = true -> before_connect evs = true.
Proof.
  cbn. intros H. apply andb_true_iff in H as [_ H]. exact H.
Qed.

(** Data, error and finish events on a connected attempt that has not
    finalized: the buffer holds the first [maxResponseBytes] bytes of
    everything received, whatever else happened in between. *)
Lemma run_connected (options : Options) (n : nat)
    (mid : list (hrtime * Event)) (a : Attempt) (buf : Buffer) :
  0 <= maxResponseBytes options ->
  before_connect mid = true ->
  responseBuffer a = Some buf ->
  Buffer_length buf <= maxResponseBytes options ->
  didPushResults a = false ->
  responseBuffer (fst (run_attempt true options n mid a))
  = Some (firstn (Z.to_nat (maxResponseBytes options))
            (buf ++ received (chunks_of mid))) /\
  didPushResults (fst (run_attempt true options n mid a)) = false.
Proof.
  intros Hmax. revert a buf.
  induction mid as [|[t ev] mid IH]; intros a buf Hmid Hb Hlen G.
  - cbn. unfold received. cbn. rewrite app_nil_r.
    unfold Buffer_length in Hlen. rewrite firstn_all2 by lia. auto.
  - pose proof (before_connect_tail _ _ Hmid) as Hmid'.
    rewrite run_attempt_fst_cons. cbn [handle].
    destruct (before_connect_cons _ _ Hmid) as [[d E]|[[x E]|E]];
      cbn [snd] in E; subst ev; cbn [probe_event fst chunks_of].
    + destruct (onData_spec options d a buf Hmax Hb Hlen G)
        as (Hb3 & _ & _ & _ & G3).
      destruct (IH (onData options d a) _ Hmid' Hb3
                  (firstn_within_cap _ _ Hmax) G3) as [IHb IHg].
      split; [|exact IHg]. rewrite IHb. unfold received. cbn [map concat snd].
      rewrite firstn_firstn_app, <- app_assoc. reflexivity.
    + apply (IH (onError x a) buf Hmid' Hb Hlen G).
    + apply (IH (onFinish a) buf Hmid' Hb Hlen G).
Qed.

Lemma run_keeps_lastErr (options : Options) (e : Err) (n : nat)
    (evs : list (hrtime * Event)) (a : Attempt) :
  lastErr a = Some e ->
  lastErr (fst (run_attempt true options n evs a)) = Some e.
Proof.
  intros H.
  apply (run_attempt_state options (fun a => lastErr a = Some e)
           (probe_event_keeps_lastErr options e) n evs a H).
Qed.

(** What [lastErr] holds after them: the overflow if the data that arrived
    before any socket error does not fit, else the first socket error. *)
Lemma run_connected_lastErr (options : Options) (n : nat)
    (mid : list (hrtime * Event)) (a : Attempt) (buf : Buffer) :
  0 <= maxResponseBytes options ->
  before_connect mid = true ->
  responseBuffer a = Some buf ->
  Buffer_length buf <= maxResponseBytes options ->
  didPushResults a = false ->
  lastErr a = None ->
  didExceedResponseBytes a = false ->
  lastErr (fst (run_attempt true options n mid a))
  = if Buffer_length buf
       + Buffer_length (received (chunks_of (before_error mid)))
       >? maxResponseBytes options
    then Some MaxResponseBytesExceeded
    else first_error mid.
Proof.
  intros Hmax. revert a buf.
  induction mid as [|[t ev] mid IH]; intros a buf Hmid Hb Hlen G He Hx.
  - cbn. unfold received, Buffer_length in *. cbn.
    rewrite Z.gtb_ltb. destruct (Z.ltb_spec (maxResponseBytes options)
                                   (Z.of_nat (length buf) + Z.of_nat 0));
      [lia | exact He].
  - pose proof (before_connect_tail _ _ Hmid) as Hmid'.
    rewrite run_attempt_fst_cons. cbn [handle].
    destruct (before_connect_cons _ _ Hmid) as [[d E]|[[x E]|E]];
      cbn [snd] in E; subst ev;
      cbn [probe_event fst chunks_of before_error first_error].
    + destruct (onData_spec options d a buf Hmax Hb Hlen G)
        as (Hb3 & Hx3 & He3 & _ & G3).
      rewrite Hx in Hx3. cbn [orb] in Hx3. rewrite Hx3, He in He3.
      unfold received. cbn [map concat snd]. fold (received (chunks_of (before_error mid))).
      unfold Buffer_length in *. rewrite length_app.
      rewrite Z.gtb_ltb in Hx3, He3.
      destruct (Z.ltb_spec (maxResponseBytes options)
                  (Z.of_nat (length buf) + Z.of_nat (length d))) as [Hov|Hfit].
      * rewrite (run_keeps_lastErr options _ n mid _ He3).
        rewrite Z.gtb_ltb.
        destruct (Z.ltb_spec (maxResponseBytes options)
                    (Z.of_nat (length buf)
                     + Z.of_nat (length d
                                 + length (received
                                             (chunks_of (before_error mid))))));
          [reflexivity | lia].
      * rewrite (IH (onData options d a) _ Hmid' Hb3
                   (firstn_within_cap _ _ Hmax) G3 He3 Hx3).
        unfold Buffer_length.
        rewrite firstn_all2 by (rewrite length_app; lia).
        rewrite length_app.
        replace (Z.of_nat (length buf + length d)
                 + Z.of_nat (length (received (chunks_of (before_error mid)))))
          with (Z.of_nat (length buf)
                + Z.of_nat (length d
                            + length (received
                                        (chunks_of (before_error mid)))))
          by lia.
        reflexivity.
    + assert (Hl : lastErr (onError x a) = Some x) by (cbn; rewrite He; reflexivity).
      rewrite (run_keeps_lastErr options _ n mid _ Hl).
      unfold received, Buffer_length in *. cbn.
      rewrite Z.gtb_ltb. destruct (Z.ltb_spec (maxResponseBytes options)
                                     (Z.of_nat (length buf) + Z.of_nat 0));
        [lia | reflexivity].
    + apply (IH (onFinish a) buf Hmid' Hb Hlen G He Hx).
Qed.

(** The match flag after them: it was set before, or the test succeeded on
    the buffer as it stood after one of the chunks. *)
Lemma run_connected_didMatch (options : Options) (m : Matcher) (n : nat)
    (mid : list (hrtime * Event)) (a : Attempt) (buf : Buffer) :
  0 <= maxResponseBytes options ->
  match_ options = Some m ->
  truthy_matcher (Some m) = true ->
  before_connect mid = true ->
  responseBuffer a = Some buf ->
  Buffer_length buf <= maxResponseBytes options ->
  didPushResults a = false ->
  didMatch (fst (run_attempt true options n mid a)) = true
  <-> didMatch a = true \/
      exists c1 c2,
        chunks_of mid = c1 ++ c2 /\ c1 <> [] /\
        test_match options m
          (firstn (Z.to_nat (maxResponseBytes options)) (buf ++ received c1))
        = true.
Proof.
  intros Hmax Hm Ht. revert a buf.
  induction mid as [|[t ev] mid IH]; intros a buf Hmid Hb Hlen G.
  - cbn. split; [auto|]. intros [H|(c1 & c2 & H & Hne & _)]; [exact H|].
    symmetry in H. apply app_eq_nil in H as [-> _]. contradiction.
  - pose proof (before_connect_tail _ _ Hmid) as Hmid'.
    rewrite run_attempt_fst_cons. cbn [handle].
    destruct (before_connect_cons _ _ Hmid) as [[d E]|[[x E]|E]];
      cbn [snd] in E; subst ev; cbn [probe_event fst chunks_of].
    + destruct (onData_spec options d a buf Hmax Hb Hlen G)
        as (Hb3 & _ & _ & _ & G3).
      pose proof (onData_didMatch options m d a buf Hmax Hb Hlen G Hm Ht)
        as Hd3.
      set (a3 := onData options d a) in *.
      set (buf1 := firstn (Z.to_nat (maxResponseBytes options)) (buf ++ d))
        in *.
      rewrite (IH a3 buf1 Hmid' Hb3 (firstn_within_cap _ _ Hmax) G3), Hd3,
        orb_true_iff.
      assert (Hcut : forall c1,
                 firstn (Z.to_nat (maxResponseBytes options))
                   (buf ++ received ((t, d) :: c1))
                 = firstn (Z.to_nat (maxResponseBytes options))
                     (buf1 ++ received c1)).
      { intros c1. unfold buf1, received. cbn [map concat snd].
        rewrite firstn_firstn_app, <- app_assoc. reflexivity. }
      assert (Hone : firstn (Z.to_nat (maxResponseBytes options))
                       (buf1 ++ received []) = buf1).
      { unfold received. cbn. rewrite app_nil_r. unfold buf1.
        rewrite firstn_firstn, Nat.min_id. reflexivity. }
      split.
      * intros [[H|H]|(c1 & c2 & Heq & Hne & H)].
        -- left. exact H.
        -- right. exists [(t, d)], (chunks_of mid).
           repeat split; [discriminate|]. rewrite Hcut, Hone. exact H.
        -- right. exists ((t, d) :: c1), c2. rewrite Heq.
           repeat split; [discriminate|]. rewrite Hcut. exact H.
      * intros [H|(c1 & c2 & Heq & Hne & H)].
        -- left. left. exact H.
        -- destruct c1 as [|[t' d'] c1]; [contradiction|].
           injection Heq as <- <- Heq. rewrite Hcut in H.
           destruct c1 as [|c c1].
           ++ left. right. rewrite Hone in H. exact H.
           ++ right. exists (c :: c1), c2.
              repeat split; [exact Heq | discriminate | exact H].
    + apply (IH (onError x a) buf Hmid' Hb Hlen G).
    + apply (IH (onFinish a) buf Hmid' Hb Hlen G).
Qed.

(** The single result of an attempt that connects, receives data, error and
    finish events, and is then finalized. *)
Lemma connected_then_finalized (options : Options) (n : nat) (t0 : hrtime)
    (mid : list (hrtime * Event)) (now : hrtime) (ev : Event) :
  before_connect mid = true ->
  reaches_finalize ev = true ->
  let a1 := fst (run_attempt true options n mid
                   (onConnect options t0 (new_attempt true options))) in
  snd (run_attempt true options n ((t0, EvConnect) :: mid ++ [(now, ev)])
         (new_attempt true options))
  = [match ev with
     | EvResponseTimer =>
         recorded options n now (Some ResponseTimeout)
           (latch_lastErr ResponseTimeout a1)
     | _ => recorded options n now None a1
     end].
Proof.
  intros Hmid Hev a1.
  change ((t0, EvConnect) :: mid ++ [(now, ev)])
    with ([(t0, EvConnect)] ++ mid ++ [(now, ev)]).
  rewrite run_attempt_app. cbn [run_attempt handle probe_event fst snd app].
  apply (run_then_finalize options n mid now ev
           (onConnect options t0 (new_attempt true options))
           (before_connect_no_finalize mid Hmid) Hev eq_refl).
Qed.

Lemma first_fault_without_error (options : Options)
    (mid : list (hrtime * Event)) :
  first_error mid = None ->
  first_fault options mid
  = if overflows options (received (chunks_of mid))
    then Some MaxResponseBytesExceeded else None.
Proof.
  intros H. unfold first_fault. rewrite H.
  assert (Hb : before_error mid = mid).
  { induction mid as [|[t ev] mid IH]; [reflexivity|].
    destruct ev; cbn in *; try discriminate; rewrite IH; auto. }
  rewrite Hb. reflexivity.
Qed.

(** * Overflow of the response buffer, in every order of events *)

(** C6, as amended: in probe mode with a [maxResponseBytes] that is not
    negative, for an attempt that connects and then receives data, error and
    finish events in any order and number before a trigger finalizes it, the
    buffer at finalize is the first [maxResponseBytes] bytes of everything
    received: an overflowing chunk is cut, not dropped, and a chunk that
    exactly fills the budget is appended whole and raises no error.  When
    the data received exceeds [maxResponseBytes], [bytes] is
    [maxResponseBytes].  The recorded [err] is the first fault when the
    close finalizes (and when the idle timeout does, if there is one): the
    overflow when the data that arrived before any socket error exceeds the
    cap, so [Max Response Bytes Exceeded] in a run without socket errors;
    when the response timer finalizes first, its [Response timeout] is
    recorded instead. *)
Theorem C6_overflow_is_truncated (options : Options) (n : nat) (t0 : hrtime)
    (mid : list (hrtime * Event)) (now : hrtime) (ev : Event) :
  0 <= maxResponseBytes options ->
  before_connect mid = true ->
  reaches_finalize ev = true ->
  let all := received (chunks_of mid) in
  exists r,
    snd (run_attempt true options n
           ((t0, EvConnect) :: mid ++ [(now, ev)])
           (new_attempt true options)) = [r] /\
    bytes r = Some (length (firstn (Z.to_nat (maxResponseBytes options)) all)) /\
    data r = (if capture options
              then Some (firstn (Z.to_nat (maxResponseBytes options)) all)
              else None) /\
    (overflows options all = true ->
     bytes r = Some (Z.to_nat (maxResponseBytes options))) /\
    match ev with
    | EvResponseTimer => err r = Some ResponseTimeout
    | EvClose => err r = first_fault options mid
    | _ => forall e, first_fault options mid = Some e -> err r = Some e
    end /\
    (first_error mid = None ->
     first_fault options mid
     = if overflows options all then Some MaxResponseBytesExceeded else None).
Proof.
  intros Hmax Hmid Hev all.
  rewrite (connected_then_finalized options n t0 mid now ev Hmid Hev).
  set (a0 := onConnect options t0 (new_attempt true options)).
  assert (Hlen0 : Buffer_length [] <= maxResponseBytes options) by exact Hmax.
  destruct (run_connected options n mid a0 [] Hmax Hmid eq_refl Hlen0 eq_refl)
    as [Hb _].
  pose proof (run_connected_lastErr options n mid a0 [] Hmax Hmid eq_refl
                Hlen0 eq_refl eq_refl eq_refl) as He.
  cbn [app] in Hb. fold all in Hb.
  change (lastErr (fst (run_attempt true options n mid a0))
          = first_fault options mid) in He.
  set (a1 := fst (run_attempt true options n mid a0)) in *.
  assert (Hbytes : overflows options all = true ->
            length (firstn (Z.to_nat (maxResponseBytes options)) all)
            = Z.to_nat (maxResponseBytes options)).
  { unfold overflows, Buffer_length. rewrite Z.gtb_ltb. intros H.
    apply Z.ltb_lt in H. rewrite length_firstn. lia. }
  eexists. split; [reflexivity|].
  assert (Hff := first_fault_without_error options mid).
  destruct ev; try discriminate; unfold recorded; cbn;
    rewrite ?Hb, ?He; cbn; repeat split; auto;
    intros H; rewrite ?(Hbytes H); reflexivity.
Qed.

Lemma C6_overflow_is_truncated_witness :
  let options := merge_defaults (ping_pong 2 1) in
  let mid := [(ms 2, EvData (list_byte_of_string "PON")); (ms 3, EvFinish)] in
  let all := received (chunks_of mid) in
  exists r,
    snd (run_attempt true options 0
           ((ms 1, EvConnect) :: mid ++ [(ms 4, EvClose)])
           (new_attempt true options)) = [r] /\
    bytes r = Some (length (firstn (Z.to_nat (maxResponseBytes options)) all)) /\
    data r = (if capture options
              then Some (firstn (Z.to_nat (maxResponseBytes options)) all)
              else None) /\
    (overflows options all = true ->
     bytes r = Some (Z.to_nat (maxResponseBytes options))) /\
    err r = first_fault options mid /\
    (first_error mid = None ->
     first_fault options mid
     = if overflows options all then Some MaxResponseBytesExceeded else None).
Proof.
  intros options mid all.
  apply (C6_overflow_is_truncated options 0 (ms 1) mid (ms 4) EvClose).
  - vm_compute. discriminate.
  - reflexivity.
  - reflexivity.
Defined.

(** * Matching the response, in every order of events *)

Lemma connected_rmatch (options : Options) (n : nat) (t0 : hrtime)
    (mid : list (hrtime * Event)) (now : hrtime) (ev : Event) :
  truthy_matcher (match_ options) = true ->
  before_connect mid = true ->
  reaches_finalize ev = true ->
  exists r,
    snd (run_attempt true options n ((t0, EvConnect) :: mid ++ [(now, ev)])
           (new_attempt true options)) = [r] /\
    rmatch r
    = Some (didMatch
              (fst (run_attempt true options n mid
                      (onConnect options t0 (new_attempt true options))))).
Proof.
  intros Ht Hmid Hev.
  rewrite (connected_then_finalized options n t0 mid now ev Hmid Hev).
  eexists. split; [reflexivity|].
  destruct ev; try discriminate; unfold recorded; cbn; rewrite Ht; reflexivity.
Qed.

(** In probe mode with a [maxResponseBytes] that is not negative, for an
    attempt that connects and then receives data, error and finish events
    in any order before a trigger finalizes it, and for a [match] whose test
    depends on the buffer only (a Buffer, a regular expression without the
    [g] or [y] flag, a predicate without state): the recorded [match] is
    [true] exactly when the test succeeded on the buffer as it stood after
    one of the chunks, that is, on the first [maxResponseBytes] bytes of the
    chunks received up to then.  A match is latched: what arrives later
    cannot undo it; and an attempt without data never matches. *)
Theorem match_is_tested_after_each_chunk (options : Options) (m : Matcher)
    (n : nat) (t0 : hrtime) (mid : list (hrtime * Event)) (now : hrtime)
    (ev : Event) :
  0 <= maxResponseBytes options ->
  match_ options = Some m ->
  truthy_matcher (Some m) = true ->
  before_connect mid = true ->
  reaches_finalize ev = true ->
  exists r b,
    snd (run_attempt true options n ((t0, EvConnect) :: mid ++ [(now, ev)])
           (new_attempt true options)) = [r] /\
    rmatch r = Some b /\
    (b = true <->
     exists c1 c2,
       chunks_of mid = c1 ++ c2 /\ c1 <> [] /\
       test_match options m
         (firstn (Z.to_nat (maxResponseBytes options)) (received c1)) = true).
Proof.
  intros Hmax Hm Ht Hmid Hev.
  assert (Ht' : truthy_matcher (match_ options) = true)
    by (rewrite Hm; exact Ht).
  destruct (connected_rmatch options n t0 mid now ev Ht' Hmid Hev)
    as (r & Hr & Hb).
  eexists r, _. split; [exact Hr|]. split; [exact Hb|].
  rewrite (run_connected_didMatch options m n mid
             (onConnect options t0 (new_attempt true options)) []
             Hmax Hm Ht Hmid eq_refl Hmax eq_refl).
  cbn [app didMatch onConnect set_responseBuffer s_write set_connectTime
       new_attempt].
  split; [intros [H|H]; [discriminate | exact H] | auto].
Qed.

Lemma match_is_tested_after_each_chunk_witness :
  let options := merge_defaults (ping_pong 4 1) in
  let mid := [(ms 2, EvData (list_byte_of_string "PO"));
              (ms 3, EvData (list_byte_of_string "NG"));
              (ms 4, EvFinish)] in
  exists r b,
    snd (run_attempt true options 0
           ((ms 1, EvConnect) :: mid ++ [(ms 5, EvClose)])
           (new_attempt true options)) = [r] /\
    rmatch r = Some b /\
    (b = true <->
     exists c1 c2,
       chunks_of mid = c1 ++ c2 /\ c1 <> [] /\
       test_match options (MBuffer (list_byte_of_string "PONG"))
         (firstn (Z.to_nat (maxResponseBytes options)) (received c1)) = true).
Proof.
  intros options mid.
  apply (match_is_tested_after_each_chunk options
           (MBuffer (list_byte_of_string "PONG")) 0 (ms 1) mid (ms 5)
           EvClose).
  - vm_compute. discriminate.
  - reflexivity.
  - reflexivity.
  - reflexivity.
  - reflexivity.
Defined.

(** In probe mode with a [maxResponseBytes] that is not negative and a
    [match] that is a Buffer after the merge, for an attempt that connects
    and then receives data, error and finish events in any order before a
    trigger finalizes it: the recorded [match] is [true] exactly when at
    least one chunk arrived and the pattern occurs, as a contiguous run of
    bytes, in the first [maxResponseBytes] bytes of everything received.
    So a pattern split over several chunks is found, a pattern beyond the
    cap is not, and an empty pattern matches as soon as any chunk
    arrives. *)
Theorem buffer_match_iff_response_contains (options : Options) (pat : Buffer)
    (n : nat) (t0 : hrtime) (mid : list (hrtime * Event)) (now : hrtime)
    (ev : Event) :
  0 <= maxResponseBytes options ->
  match_ options = Some (MBuffer pat) ->
  before_connect mid = true ->
  reaches_finalize ev = true ->
  exists r b,
    snd (run_attempt true options n ((t0, EvConnect) :: mid ++ [(now, ev)])
           (new_attempt true options)) = [r] /\
    rmatch r = Some b /\
    (b = true <->
     chunks_of mid <> [] /\
     contains
       (firstn (Z.to_nat (maxResponseBytes options))
          (received (chunks_of mid)))
       pat).
Proof.
  intros Hmax Hm Hmid Hev.
  assert (Ht' : truthy_matcher (match_ options) = true)
    by (rewrite Hm; reflexivity).
  destruct (connected_rmatch options n t0 mid now ev Ht' Hmid Hev)
    as (r & Hr & Hb).
  eexists r, _. split; [exact Hr|]. split; [exact Hb|].
  rewrite (run_connected_didMatch options (MBuffer pat) n mid
             (onConnect options t0 (new_attempt true options)) []
             Hmax Hm eq_refl Hmid eq_refl Hmax eq_refl).
  cbn [app didMatch onConnect set_responseBuffer s_write set_connectTime
       new_attempt test_match].
  split.
  - intros [H|(c1 & c2 & Heq & Hne & H)]; [discriminate|].
    rewrite Heq.
    split; [destruct c1; [contradiction | discriminate]|].
    apply Buffer_includes_spec in H.
    rewrite received_app, firstn_app. apply contains_prefix. exact H.
  - intros [Hne H]. right. exists (chunks_of mid), []. rewrite app_nil_r.
    repeat split; [exact Hne|]. apply Buffer_includes_spec. exact H.
Qed.

Lemma buffer_match_iff_response_contains_witness :
  let options := merge_defaults (ping_pong 4 1) in
  let mid := [(ms 2, EvData (list_byte_of_string "PO"));
              (ms 3, EvData (list_byte_of_string "NG"));
              (ms 4, EvFinish)] in
  exists r b,
    snd (run_attempt true options 0
           ((ms 1, EvConnect) :: mid ++ [(ms 5, EvClose)])
           (new_attempt true options)) = [r] /\
    rmatch r = Some b /\
    (b = true <->
     chunks_of mid <> [] /\
     contains
       (firstn (Z.to_nat (maxResponseBytes options))
          (received (chunks_of mid)))
       (list_byte_of_string "PONG")).
Proof.
  intros options mid.
  apply (buffer_match_iff_response_contains options
           (list_byte_of_string "PONG") 0 (ms 1) mid (ms 5) EvClose).
  - vm_compute. discriminate.
  - reflexivity.
  - reflexivity.
  - reflexivity.
Defined.

(** * The idle timeout of the socket *)





(** * No attempts requested *)

(** C10, as amended: the aggregator reads [results[0]] and throws on an
    empty [results]; but [probe] starts the first attempt before
    [options.attempts] is looked at, so with a callback, [attempts: 0] and a
    timeout that is not negative, for every sequence of events, [results]
    holds one result when the aggregator runs: the aggregator does not
    throw, the callback is called at most once, with a report of that single
    result, and it has been called once the attempt has received an event
    that finalizes it.  (A negative timeout is refused by the socket before
    any attempt starts, which is outside this model.) *)
Theorem C10_zero_attempts_makes_one_attempt (options : RawOptions)
    (schedule : list (nat * hrtime * Event)) (now : hrtime) (w0 : World) :
  attempts (merge_defaults options) = 0 ->
  0 <= timeout (merge_defaults options) ->
  probe options true = inr w0 ->
  let w := run options schedule w0 in
  thrown w = None /\
  (forall out, In out (reports w) ->
     reports w = [out] /\ length (Report.results out) = 1%nat) /\
  exists out,
    reports (run options (schedule ++ settle (isProbe options) now 1) w0)
    = [out].
Proof.
  intros Hn _ Hw0 w. injection Hw0 as <-.
  assert (Hmade : attempts_made (merge_defaults options) = 1%nat)
    by (unfold attempts_made; rewrite Hn; reflexivity).
  pose proof (started_sequenced options schedule) as Hw.
  change (started options) with
    (connect (isProbe options) (merge_defaults options)
       {| i := 0%nat; results := []; sockets := []; reports := [];
          thrown := None |}) in Hw.
  fold w in Hw. split; [exact (seq_thrown _ _ _ Hw)|]. split.
  - intros out Hin. rewrite <- Hmade.
    destruct (sequenced_report _ _ w out Hw Hin) as (H1 & H2 & _). auto.
  - unfold run. rewrite fold_left_app. rewrite <- Hmade.
    apply settle_reports. exact Hw.
Qed.

Lemma C10_zero_attempts_makes_one_attempt_witness :
  let options := with_attempts 0 in
  let schedule := [(0%nat, ms 1, EvError (TransportError "ECONNREFUSED"));
                   (0%nat, ms 2, EvClose)] in
  exists w0,
    probe options true = inr w0 /\
    let w := run options schedule w0 in
    thrown w = None /\
    (forall out, In out (reports w) ->
       reports w = [out] /\ length (Report.results out) = 1%nat) /\
    exists out,
      reports (run options (schedule ++ settle (isProbe options) (ms 9) 1) w0)
      = [out].
Proof.
  intros options schedule. eexists. split; [reflexivity|].
  apply (C10_zero_attempts_makes_one_attempt options schedule (ms 9)).
  - reflexivity.
  - vm_compute. discriminate.
  - reflexivity.
Defined.

(** C10, as stated, fails: on the empty [results] the claim speaks of the
    aggregator throws a TypeError, in either mode; and with [attempts: 0]
    [results] is not empty at aggregation time: after a connect the callback
    receives a report with one result. *)
Lemma C10_aggregate_throws_on_empty_results :
  let options := with_attempts 0 in
  aggregate false (merge_defaults options) [] = inl TypeError /\
  aggregate true (merge_defaults options) [] = inl TypeError /\
  map (fun out => length (Report.results out))
    (reports (run options [(0%nat, ms 1, EvConnect)] (started options)))
  = [1%nat].
Proof.
  repeat split; vm_compute; reflexivity.
Qed.
